(** * fastboot.js: zip entry readers, timeouts and timed progress

    A shallow embedding of [src/io.ts] and of the helpers of [src/common.ts]
    it relies on ([getEntryMetadata], [zipGetData], [runWithTimeout],
    [runWithTimedProgress]).

    - JavaScript numbers that index bytes are integers here ([Z]).
    - A [Blob], an [ArrayBuffer] and a [Uint8Array] are lists of bytes.
    - An [async] function is a computation in the monad [IO]: it yields the
      outcome of the promise (fulfilled or rejected) together with the trace
      of the requests it made to the host (blob slices, library decodes).
    - Callback code driven by the event loop ([runWithTimeout],
      [runWithTimedProgress]) is a transition system whose events are the
      tasks the host schedules. *)

From Stdlib Require Import ZArith List String Bool Lia QArith.
From Stdlib Require Import Strings.Byte.
From Stdlib Require Import DecimalString Sorted.
Import ListNotations.

Local Open Scope Z_scope.

(** ** JavaScript values that can be thrown *)

(** Only the shapes the code distinguishes are kept apart: [Error] objects
    (with their [name] and [message]), the [TimeoutError] of common.ts with
    its [timeout] field, [ProgressEvent]s with their [type] and their
    [target] (null, or an object given by its properties), plain objects and
    [undefined]. *)
#[warnings="-register-all"] Inductive JsValue : Type :=
| JsUndefined
| JsError (name message : string)
| JsTimeoutError (name message : string) (timeout : Z)
| JsProgressEvent (type : string) (target : option (list (string * JsValue)))
| JsObject (props : list (string * JsValue)).

Definition RangeError : JsValue :=
  JsError "RangeError" "Offset is outside the bounds of the DataView".

Definition TypeError : JsValue :=
  JsError "TypeError" "Cannot read properties of undefined".

(** Property read [o.key] on an object given by its properties: a missing
    property reads as [undefined]. *)
Fixpoint get_prop (props : list (string * JsValue)) (key : string) : JsValue :=
  match props with
  | [] => JsUndefined
  | (k, v) :: rest => if String.eqb k key then v else get_prop rest key
  end.

(** Whether an object carries the property [key], and with which value:
    [None] when it carries none. A property that is present may hold
    [undefined]. *)
Fixpoint find_prop (props : list (string * JsValue)) (key : string)
    : option JsValue :=
  match props with
  | [] => None
  | (k, v) :: rest => if String.eqb k key then Some v else find_prop rest key
  end.

(** ** Promises and the host trace *)

Inductive Outcome (A : Type) : Type :=
| Fulfilled (value : A)
| Rejected (reason : JsValue).
Arguments Fulfilled {A} value.
Arguments Rejected {A} reason.

Definition Blob : Type := list byte.
Definition ArrayBuffer : Type := list byte.
Definition Uint8Array : Type := list byte.

(** [EntryGetDataOptions] of zip.js is an object of optional settings. *)
Definition EntryGetDataOptions : Type := list (string * JsValue).

(** What an [async] function asks of the host and of the archive library:
    [blob.slice(start, end).arrayBuffer()] on a given blob, and
    [entry.getData(new BlobWriter(mime), options)]. *)
Inductive HostCall : Type :=
| CallSlice (receiver : Blob) (start end_ : Z)
| CallGetData (mime : option string) (options : option EntryGetDataOptions).

Definition IO (A : Type) : Type := (list HostCall * Outcome A)%type.

Definition ret {A} (a : A) : IO A := ([], Fulfilled a).

Definition throw {A} (e : JsValue) : IO A := ([], Rejected e).

Definition bind {A B} (m : IO A) (k : A -> IO B) : IO B :=
  match m with
  | (t, Fulfilled a) => let (t', r) := k a in (t ++ t', r)
  | (t, Rejected e) => (t, Rejected e)
  end.

(** [try { m } catch (e) { h e }] *)
Definition try_catch {A} (m : IO A) (h : JsValue -> IO A) : IO A :=
  match m with
  | (t, Fulfilled a) => (t, Fulfilled a)
  | (t, Rejected e) => let (t', r) := h e in (t ++ t', r)
  end.

Definition lift {A} (o : Outcome A) : IO A := ([], o).

Definition trace {A} (m : IO A) : list HostCall := fst m.
Definition outcome {A} (m : IO A) : Outcome A := snd m.

Declare Scope io_scope.
Delimit Scope io_scope with io.
Notation "'await' x <- m ;; k" := (bind m (fun x => k))
  (at level 100, x name, m at next level, right associativity) : io_scope.
Local Open Scope io_scope.

(** ** Host byte sources *)

Definition byte_val (b : byte) : Z := Z.of_N (Byte.to_N b).

Definition Blob_size (b : Blob) : Z := Z.of_nat (List.length b).

(** [Blob.prototype.slice(start, end)] of the File API: a negative bound
    counts from the end of the blob, both bounds are clamped to
    [0, size], and the result spans [max (relativeEnd - relativeStart) 0]
    bytes from [relativeStart]. It never throws. *)
Definition relative_bound (size bound : Z) : Z :=
  if bound <? 0 then Z.max (size + bound) 0 else Z.min bound size.

Definition Blob_slice (b : Blob) (start end_ : Z) : Blob :=
  let relativeStart := relative_bound (Blob_size b) start in
  let relativeEnd := relative_bound (Blob_size b) end_ in
  let span := Z.max (relativeEnd - relativeStart) 0 in
  firstn (Z.to_nat span) (skipn (Z.to_nat relativeStart) b).

(** [await blob.slice(start, end).arrayBuffer()] *)
Definition slice_arrayBuffer (b : Blob) (start end_ : Z) : IO ArrayBuffer :=
  ([CallSlice b start end_], Fulfilled (Blob_slice b start end_)).

(** Little-endian value of a run of bytes. *)
Fixpoint le_value (bs : list byte) : Z :=
  match bs with
  | [] => 0
  | b :: rest => Z.lor (byte_val b) (Z.shiftl (le_value rest) 8)
  end.

(** [new DataView(buffer).getUintN(byteOffset, true)] for N = 8 * width: a
    [RangeError] when the [width] bytes at [byteOffset] are not all inside
    the buffer. *)
Definition DataView_getUint (width : nat) (buffer : ArrayBuffer)
    (byteOffset : Z) : Outcome Z :=
  if (0 <=? byteOffset) &&
     (byteOffset + Z.of_nat width <=? Z.of_nat (List.length buffer))
  then Fulfilled (le_value (firstn width (skipn (Z.to_nat byteOffset) buffer)))
  else Rejected RangeError.

Definition getUint16 := DataView_getUint 2.
Definition getUint32 := DataView_getUint 4.

(** ** src/io.ts: index clamping *)

Definition parseIndex (index size : Z) : Z :=
  if index <? 0 then Z.max (index + size) 0 else Z.min index size.

(** ** src/common.ts: entry metadata *)

Definition ZIP_ENTRY_HEADER_BEGIN_LENGTH : Z := 30.

Record EntryMetadata : Type := mkEntryMetadata {
  md_offset : Z;
  compressionMethod : Z;
  compressedSize : Z;
  uncompressedSize : Z;
  headerSize : Z
}.

(** [BlobWriter] of zip.js, as far as the code builds it. *)
Record BlobWriter : Type := mkBlobWriter { writer_mime : option string }.

(** [Entry] of zip.js: its [offset] and its optional [getData] method,
    given by the outcome of the promise it returns. *)
Record Entry : Type := mkEntry {
  entry_offset : Z;
  getData : option (BlobWriter -> option EntryGetDataOptions -> Outcome Blob)
}.

Definition getEntryMetadata (blob : Blob) (entry : Entry) : IO EntryMetadata :=
  let offset := entry_offset entry in
  await headerBeginRaw <-
    slice_arrayBuffer blob offset (offset + ZIP_ENTRY_HEADER_BEGIN_LENGTH) ;;
  let dataView := headerBeginRaw in
  await compressionMethod <- lift (getUint16 dataView 8) ;;
  await compressedSize <- lift (getUint32 dataView 18) ;;
  await uncompressedSize <- lift (getUint32 dataView 22) ;;
  await fileNameLength <- lift (getUint16 dataView 26) ;;
  await extraFieldLength <- lift (getUint16 dataView 28) ;;
  let headerSize :=
    ZIP_ENTRY_HEADER_BEGIN_LENGTH + fileNameLength + extraFieldLength in
  ret {| md_offset := offset;
         compressionMethod := compressionMethod;
         compressedSize := compressedSize;
         uncompressedSize := uncompressedSize;
         headerSize := headerSize |}.

(** [zipGetData]: [Entry#getData] with [ProgressEvent] errors unwrapped. The
    call [entry.getData!(writer, options)] throws a [TypeError] inside the
    [try] when the entry has no [getData]. *)
Definition call_getData (entry : Entry) (writer : BlobWriter)
    (options : option EntryGetDataOptions) : IO Blob :=
  match getData entry with
  | None => throw TypeError
  | Some f => ([CallGetData (writer_mime writer) options], f writer options)
  end.

Definition zipGetData (entry : Entry) (writer : BlobWriter)
    (options : option EntryGetDataOptions) : IO Blob :=
  try_catch (call_getData entry writer options)
    (fun e =>
       match e with
       | JsProgressEvent type (Some target) =>
           if String.eqb type "error"
           then throw (get_prop target "error")
           else throw e
       | _ => throw e
       end).

(** ** src/io.ts: readers *)

(** A zip.js [Reader] object: its [size] field and its [readUint8Array]
    method. *)
Record Reader : Type := mkReader {
  size : Z;
  readUint8Array : Z -> Z -> IO Uint8Array
}.

Definition BlobEntryReaderImpl (blob : Blob) (entryMetadata : EntryMetadata)
    : Reader :=
  let this_offset := md_offset entryMetadata + headerSize entryMetadata in
  let this_size := compressedSize entryMetadata in
  {| size := this_size;
     readUint8Array := fun index length =>
       let start := parseIndex index this_size + this_offset in
       let end_ := parseIndex (index + length) this_size + this_offset in
       await buffer <- slice_arrayBuffer blob start end_ ;;
       ret buffer |}.

(** The state of a [BlobEntryReader] object. *)
Record BlobEntryReader : Type := mkBlobEntryReader {
  this_blob : Blob;
  this_entry : Entry;
  this_mimeString : option string;
  this_options : option EntryGetDataOptions;
  this_reader : option Reader;
  this_size : Z
}.

Definition set_reader (this : BlobEntryReader) (r : Reader) : BlobEntryReader :=
  {| this_blob := this_blob this;
     this_entry := this_entry this;
     this_mimeString := this_mimeString this;
     this_options := this_options this;
     this_reader := Some r;
     this_size := this_size this |}.

Definition set_size (this : BlobEntryReader) (s : Z) : BlobEntryReader :=
  {| this_blob := this_blob this;
     this_entry := this_entry this;
     this_mimeString := this_mimeString this;
     this_options := this_options this;
     this_reader := this_reader this;
     this_size := s |}.

Section ZipLibrary.

(** [new BlobReader(blob)] of zip.js, and the [size] the constructor of
    its base class [Reader] leaves in a new object. *)
Variable BlobReader : Blob -> Reader.
Variable Reader_size : Z.

Definition new_BlobEntryReader (blob : Blob) (entry : Entry)
    (mimeString : option string) (options : option EntryGetDataOptions)
    : BlobEntryReader :=
  {| this_blob := blob;
     this_entry := entry;
     this_mimeString := mimeString;
     this_options := options;
     this_reader := None;
     this_size := Reader_size |}.

(** [init]: the object after the call, when the promise is fulfilled. No
    field is assigned before the last point where [init] can throw, so a
    rejected call leaves the object as it was. *)
Definition BlobEntryReader_init (this : BlobEntryReader)
    : IO BlobEntryReader :=
  await entryMetadata <- getEntryMetadata (this_blob this) (this_entry this) ;;
  await this' <-
    (if negb (compressionMethod entryMetadata =? 0) then
       await entryBlob <-
         zipGetData (this_entry this)
           (mkBlobWriter (this_mimeString this)) (this_options this) ;;
       ret (set_reader this (BlobReader entryBlob))
     else
       ret (set_reader this
              (BlobEntryReaderImpl (this_blob this) entryMetadata))) ;;
  match this_reader this' with
  | Some r => ret (set_size this' (size r))
  | None => throw TypeError
  end.

End ZipLibrary.

(** [this.reader!.readUint8Array(index, length)]: a [TypeError] while
    [reader] is undefined. *)
Definition BlobEntryReader_readUint8Array (this : BlobEntryReader)
    (index length : Z) : IO Uint8Array :=
  match this_reader this with
  | Some r => readUint8Array r index length
  | None => throw TypeError
  end.

(** ** src/common.ts: runWithTimeout *)

(** The executor of the returned promise installs two callbacks on the event
    loop, the [setTimeout] callback and the [then]/[catch]/[finally] chain
    on the wrapped promise, over the shared variables [timedOut] and [tid].
    A task of the host runs one of them to completion: the reactions of the
    chain are microtasks, and no timer task runs between them. *)
Module RunWithTimeout.

(** [new TimeoutError(timeout)] *)
Definition new_TimeoutError (timeout : Z) : JsValue :=
  JsTimeoutError "TimeoutError"
    ("Timeout of " ++ NilZero.string_of_int (Z.to_int timeout)
       ++ " ms exceeded")
    timeout.

(** The timer behind [tid]. *)
Inductive TimerHandle : Type := Armed | Fired | Cleared.

Section Run.
Context {T : Type}.
Variable timeout : Z.

Record State : Type := mkState {
  timedOut : bool;
  tid : TimerHandle;
  (** the wrapped promise has not settled yet *)
  promise_pending : bool;
  (** the returned promise: [None] while pending *)
  result : option (Outcome T);
  (** every call of [resolve] or [reject], oldest first *)
  settle_calls : list (Outcome T)
}.

(** [resolve(val)] and [reject(err)] of the returned promise: only the
    first call settles it. *)
Definition settle (o : Outcome T) (st : State) : State :=
  {| timedOut := timedOut st;
     tid := tid st;
     promise_pending := promise_pending st;
     result := match result st with None => Some o | Some r => Some r end;
     settle_calls := settle_calls st ++ [o] |}.

Definition resolve (val : T) : State -> State := settle (Fulfilled val).
Definition reject (err : JsValue) : State -> State := settle (Rejected err).

Definition clearTimeout (st : State) : State :=
  {| timedOut := timedOut st;
     tid := match tid st with Armed => Cleared | h => h end;
     promise_pending := promise_pending st;
     result := result st;
     settle_calls := settle_calls st |}.

Definition initial : State :=
  {| timedOut := false;
     tid := Armed;
     promise_pending := true;
     result := None;
     settle_calls := [] |}.

(** The [setTimeout] callback. *)
Definition onTimer (st : State) : State :=
  let st1 := {| timedOut := true;
                tid := Fired;
                promise_pending := promise_pending st;
                result := result st;
                settle_calls := settle_calls st |} in
  reject (new_TimeoutError timeout) st1.

Definition onThen (val : T) (st : State) : State :=
  if negb (timedOut st) then resolve val st else st.

Definition onCatch (err : JsValue) (st : State) : State :=
  if negb (timedOut st) then reject err st else st.

Definition onFinally (st : State) : State :=
  if negb (timedOut st) then clearTimeout st else st.

Definition promise_settled (st : State) : State :=
  {| timedOut := timedOut st;
     tid := tid st;
     promise_pending := false;
     result := result st;
     settle_calls := settle_calls st |}.

(** The tasks of the host. *)
Inductive Task : Type :=
| TimerFires
| PromiseSettles (o : Outcome T).

(** One task; [None] when the host cannot deliver it: a timer fires
    once and only while armed, a promise settles once. *)
Definition step (st : State) (task : Task) : option State :=
  match task with
  | TimerFires =>
      match tid st with
      | Armed => Some (onTimer st)
      | _ => None
      end
  | PromiseSettles o =>
      if promise_pending st then
        Some (match o with
              | Fulfilled val => onFinally (onThen val (promise_settled st))
              | Rejected err => onFinally (onCatch err (promise_settled st))
              end)
      else None
  end.

Fixpoint run (st : State) (tasks : list Task) : option State :=
  match tasks with
  | [] => Some st
  | task :: rest =>
      match step st task with
      | Some st' => run st' rest
      | None => None
      end
  end.

End Run.

End RunWithTimeout.

(** ** src/common.ts: runWithTimedProgress *)

(** The reported fraction is the exact quotient, kept in lowest terms;
    the rounding of the division to a double is monotone and is left out.
    Clock readings and [duration] are integers (milliseconds). The callback
    [onProgress] records its third argument and does not throw. *)
Module RunWithTimedProgress.

Inductive Number : Type :=
| Finite (q : Q)
| PosInfinity
| NegInfinity
| NaN.

(** [a / b] on numbers holding integers *)
Definition divide (a b : Z) : Number :=
  if b =? 0 then
    if a =? 0 then NaN else if 0 <? a then PosInfinity else NegInfinity
  else Finite (Qred (Qmake (a * Z.sgn b) (Z.to_pos (Z.abs b)))).

Definition zero : Number := Finite (Qmake 0 1).
Definition one : Number := Finite (Qmake 1 1).

(** Where the body of the [async] function stands. *)
Inductive Main : Type :=
| AwaitRace
| AwaitProgress
| AwaitWork
| Returned
| Threw (e : JsValue).

Section Run.
Context {T : Type}.
Variable duration : Z.

Record State : Type := mkState {
  startTime : Z;
  stop : bool;
  now : Z;
  (** [progressPromise] is pending: the loop waits for a frame *)
  looping : bool;
  (** [workPromise]: [None] while pending *)
  work : option (Outcome T);
  main : Main;
  (** the fractions passed to [onProgress], oldest first *)
  reported : list Number
}.

Definition onProgress (fraction : Number) (st : State) : State :=
  {| startTime := startTime st; stop := stop st; now := now st;
     looping := looping st; work := work st; main := main st;
     reported := reported st ++ [fraction] |}.

Definition set_main (m : Main) (st : State) : State :=
  {| startTime := startTime st; stop := stop st; now := now st;
     looping := looping st; work := work st; main := m;
     reported := reported st |}.

Definition set_stop (st : State) : State :=
  {| startTime := startTime st; stop := true; now := now st;
     looping := looping st; work := work st; main := main st;
     reported := reported st |}.

Definition set_work (o : Outcome T) (st : State) : State :=
  {| startTime := startTime st; stop := stop st; now := now st;
     looping := looping st; work := Some o; main := main st;
     reported := reported st |}.

Definition end_loop (st : State) : State :=
  {| startTime := startTime st; stop := stop st; now := now st;
     looping := false; work := work st; main := main st;
     reported := reported st |}.

(** The body of the [do] loop up to [await waitForFrame()], with [t] the
    reading of the clock. *)
Definition loop_body (t : Z) (st : State) : State :=
  onProgress (divide (t - startTime st) duration)
    {| startTime := startTime st; stop := stop st; now := t;
       looping := looping st; work := work st; main := main st;
       reported := reported st |}.

(** [await workPromise; onProgress(action, item, 1.0)] *)
Definition await_work (st : State) : State :=
  match work st with
  | None => set_main AwaitWork st
  | Some (Fulfilled _) => set_main Returned (onProgress one st)
  | Some (Rejected e) => set_main (Threw e) st
  end.

(** [await progressPromise; ...] *)
Definition await_progress (st : State) : State :=
  if looping st then set_main AwaitProgress st else await_work st.

(** [stop = true; ...], after the race is won *)
Definition after_race (st : State) : State :=
  await_progress (set_stop st).

(** The call up to its first suspension: [t0] and [t1] are the first
    two readings of the clock. *)
Definition start (t0 t1 : Z) : State :=
  loop_body t1
    (onProgress zero
       {| startTime := t0; stop := false; now := t0; looping := true;
          work := None; main := AwaitRace; reported := [] |}).

(** The tasks of the host: an animation frame, with the reading of the
    clock the loop takes if it goes on, and the settling of
    [workPromise]. *)
Inductive Task : Type :=
| Frame (t : Z)
| WorkSettles (o : Outcome T).

(** The continuation of the body when [progressPromise] is fulfilled. *)
Definition progress_done (st : State) : State :=
  match main st with
  | AwaitRace => after_race st
  | AwaitProgress => await_work st
  | _ => st
  end.

(** The continuation of the body when [workPromise] settles. *)
Definition work_done (o : Outcome T) (st : State) : State :=
  match main st with
  | AwaitRace =>
      match o with
      | Fulfilled _ => after_race st
      | Rejected e => set_main (Threw e) st
      end
  | AwaitWork => await_work st
  | _ => st
  end.

Definition step (st : State) (task : Task) : option State :=
  match task with
  | Frame t =>
      if looping st then
        Some (if negb (stop st) && (now st <? startTime st + duration)
              then loop_body t st
              else progress_done (end_loop st))
      else None
  | WorkSettles o =>
      match work st with
      | None => Some (work_done o (set_work o st))
      | Some _ => None
      end
  end.

Fixpoint run (st : State) (tasks : list Task) : option State :=
  match tasks with
  | [] => Some st
  | task :: rest =>
      match step st task with
      | Some st' => run st' rest
      | None => None
      end
  end.

End Run.

End RunWithTimedProgress.

(** ** Vocabulary of the statements *)

(** The bytes of [b] at the positions [lo <= p < hi], for [0 <= lo]: what a
    direct slice of the container yields. *)
Definition bytes_in_range (b : Blob) (lo hi : Z) : list byte :=
  firstn (Z.to_nat (hi - lo)) (skipn (Z.to_nat lo) b).

(** The byte of [b] at position [p], as a number. *)
Definition byte_at (b : Blob) (p : Z) : Z :=
  byte_val (nth (Z.to_nat p) b x00).

(** The positions of the receiver that [slice(start, end)] reads: from the
    first (included) to the second (excluded). *)
Definition Blob_slice_positions (b : Blob) (start end_ : Z) : Z * Z :=
  let relativeStart := relative_bound (Blob_size b) start in
  let relativeEnd := relative_bound (Blob_size b) end_ in
  (relativeStart, relativeStart + Z.max (relativeEnd - relativeStart) 0).

(** The data window of a stored entry. *)
Definition dataStart (md : EntryMetadata) : Z := md_offset md + headerSize md.

(** The readings of the clock that a schedule of [runWithTimedProgress]
    offers to the loop, one per animation frame. *)
Fixpoint frames {T : Type} (tasks : list (@RunWithTimedProgress.Task T))
    : list Z :=
  match tasks with
  | [] => []
  | RunWithTimedProgress.Frame t :: rest => t :: frames rest
  | RunWithTimedProgress.WorkSettles _ :: rest => frames rest
  end.

(** The order of the reported fractions that are finite. *)
Definition Number_le (x y : RunWithTimedProgress.Number) : Prop :=
  match x, y with
  | RunWithTimedProgress.Finite p, RunWithTimedProgress.Finite q => Qle p q
  | _, _ => False
  end.

(** The fraction the loop reports at the reading [t] of the clock. *)
Definition elapsed_fraction (duration t0 t : Z) : RunWithTimedProgress.Number :=
  RunWithTimedProgress.divide (t - t0) duration.

(** The closing report [1.0], present once the function has returned. *)
Definition final_report (m : RunWithTimedProgress.Main)
    : list RunWithTimedProgress.Number :=
  match m with
  | RunWithTimedProgress.Returned => [RunWithTimedProgress.one]
  | _ => []
  end.

(** What holds of every state [runWithTimedProgress] reaches, [ticks] being
    the readings of the clock the loop has taken so far. *)
Definition progress_inv {T : Type} (duration t0 : Z) (ticks : list Z)
    (st : @RunWithTimedProgress.State T) : Prop :=
  RunWithTimedProgress.startTime st = t0 /\
  RunWithTimedProgress.reported st =
    RunWithTimedProgress.zero
      :: map (elapsed_fraction duration t0) ticks
      ++ final_report (RunWithTimedProgress.main st) /\
  match RunWithTimedProgress.main st with
  | RunWithTimedProgress.AwaitRace =>
      RunWithTimedProgress.looping st = true /\
      RunWithTimedProgress.work st = None /\
      RunWithTimedProgress.stop st = false
  | RunWithTimedProgress.AwaitProgress =>
      RunWithTimedProgress.looping st = true /\
      RunWithTimedProgress.stop st = true /\
      exists v, RunWithTimedProgress.work st = Some (Fulfilled v)
  | RunWithTimedProgress.AwaitWork =>
      RunWithTimedProgress.looping st = false /\
      RunWithTimedProgress.work st = None
  | RunWithTimedProgress.Returned =>
      RunWithTimedProgress.looping st = false /\
      exists v, RunWithTimedProgress.work st = Some (Fulfilled v)
  | RunWithTimedProgress.Threw e =>
      RunWithTimedProgress.work st = Some (Rejected e)
  end.

(** The two states [runWithTimeout] can end in. The wrapped promise settled
    first: its outcome is the outcome of the returned promise and the timer
    is cleared. *)
Definition promise_won {T : Type} (o : Outcome T) : @RunWithTimeout.State T :=
  {| RunWithTimeout.timedOut := false;
     RunWithTimeout.tid := RunWithTimeout.Cleared;
     RunWithTimeout.promise_pending := false;
     RunWithTimeout.result := Some o;
     RunWithTimeout.settle_calls := [o] |}.

(** The timer fired first; [pending] tells whether the wrapped promise is
    still to settle. *)
Definition timer_won {T : Type} (timeout : Z) (pending : bool)
    : @RunWithTimeout.State T :=
  {| RunWithTimeout.timedOut := true;
     RunWithTimeout.tid := RunWithTimeout.Fired;
     RunWithTimeout.promise_pending := pending;
     RunWithTimeout.result :=
       Some (Rejected (RunWithTimeout.new_TimeoutError timeout));
     RunWithTimeout.settle_calls :=
       [Rejected (RunWithTimeout.new_TimeoutError timeout)] |}.

(** ** Sample archives *)

(** A local file header (30 bytes), the file name [a], the stored data
    [abc], and the first two bytes of what follows in the archive. *)
Definition sample_header (method : byte) : list byte :=
  [x50; x4b; x03; x04; x0a; x00; x00; x00; method; x00;
   x00; x00; x00; x00; xc2; x41; x24; x35; x03; x00;
   x00; x00; x03; x00; x00; x00; x01; x00; x00; x00].

Definition sample_container : Blob :=
  sample_header x00 ++ [x61] ++ [x61; x62; x63] ++ [x50; x4b].

Definition sample_deflated : Blob :=
  sample_header x08 ++ [x61] ++ [x4b; x4c; x4a] ++ [x50; x4b].

Definition sample_decode (w : BlobWriter) (o : option EntryGetDataOptions)
    : Outcome Blob :=
  Fulfilled [x61; x62; x63].

Definition sample_entry : Entry :=
  {| entry_offset := 0; getData := Some sample_decode |}.

Definition sample_metadata : EntryMetadata :=
  {| md_offset := 0; compressionMethod := 0; compressedSize := 3;
     uncompressedSize := 3; headerSize := 31 |}.

Definition sample_deflated_metadata : EntryMetadata :=
  {| md_offset := 0; compressionMethod := 8; compressedSize := 3;
     uncompressedSize := 3; headerSize := 31 |}.

(** An entry whose decode fails the way a [FileReader] reports it: with a
    [ProgressEvent] of type [error] whose target carries the error. *)
Definition sample_read_error : JsValue :=
  JsError "NotReadableError" "The file could not be read".

Definition sample_failing_decode (w : BlobWriter)
    (o : option EntryGetDataOptions) : Outcome Blob :=
  Rejected
    (JsProgressEvent "error"
       (Some [("readyState"%string, JsUndefined);
             ("error"%string, sample_read_error)])).

Definition sample_failing_entry : Entry :=
  {| entry_offset := 0; getData := Some sample_failing_decode |}.

(** An entry whose decode fails with a [ProgressEvent] of type [error]
    whose target is an object without an [error] property. *)
Definition sample_fieldless_target : list (string * JsValue) :=
  [("readyState"%string, JsUndefined)].

Definition sample_fieldless_event : JsValue :=
  JsProgressEvent "error" (Some sample_fieldless_target).

Definition sample_fieldless_decode (w : BlobWriter)
    (o : option EntryGetDataOptions) : Outcome Blob :=
  Rejected sample_fieldless_event.

Definition sample_fieldless_entry : Entry :=
  {| entry_offset := 0; getData := Some sample_fieldless_decode |}.

(** An entry whose decode fails with a plain error. *)
Definition sample_abort_error : JsValue :=
  JsError "AbortError" "The operation was aborted".

Definition sample_aborted_decode (w : BlobWriter)
    (o : option EntryGetDataOptions) : Outcome Blob :=
  Rejected sample_abort_error.

Definition sample_aborted_entry : Entry :=
  {| entry_offset := 0; getData := Some sample_aborted_decode |}.

(** A stand-in for the [BlobReader] of zip.js in the examples. *)
Definition sample_BlobReader (blob : Blob) : Reader :=
  {| size := Blob_size blob;
     readUint8Array := fun index length =>
       slice_arrayBuffer blob index (index + length) |}.

(** Schedules of [runWithTimedProgress] with an estimated duration of 16
    ms, the clock reading 0 at the call and 1 in the first turn of the
    loop. The operation is fulfilled after the estimate has elapsed. *)
Definition sample_schedule : list (@RunWithTimedProgress.Task unit) :=
  [RunWithTimedProgress.Frame 8; RunWithTimedProgress.Frame 16;
   RunWithTimedProgress.WorkSettles (Fulfilled tt);
   RunWithTimedProgress.Frame 17].

(** The operation is rejected at once; the loop runs to its end. *)
Definition sample_rejected_schedule
    : list (@RunWithTimedProgress.Task unit) :=
  [RunWithTimedProgress.WorkSettles (Rejected sample_read_error);
   RunWithTimedProgress.Frame 17; RunWithTimedProgress.Frame 33].

(** ** src/common.ts: debug logging *)

Inductive DebugLevel : Type := Silent | Debug | Verbose.

(** The number behind each member of the enum. *)
Definition DebugLevel_value (level : DebugLevel) : Z :=
  match level with
  | Silent => 0
  | Debug => 1
  | Verbose => 2
  end.

(** The module variable [debugLevel] and what [console.log] has printed,
    oldest first; [Data] is the type of the argument lists of the log
    functions. *)
Module Logging.

Section Log.
Context {Data : Type}.

Record State : Type := mkState {
  debugLevel : DebugLevel;
  console : list Data
}.

Definition initial : State := {| debugLevel := Silent; console := [] |}.

Definition console_log (data : Data) (st : State) : State :=
  {| debugLevel := debugLevel st; console := console st ++ [data] |}.

Definition logDebug (data : Data) (st : State) : State :=
  if 1 <=? DebugLevel_value (debugLevel st) then console_log data st else st.

Definition logVerbose (data : Data) (st : State) : State :=
  if 2 <=? DebugLevel_value (debugLevel st) then console_log data st else st.

Definition setDebugLevel (level : DebugLevel) (st : State) : State :=
  {| debugLevel := level; console := console st |}.

(** The calls a client makes, and a sequence of them. *)
Inductive Call : Type :=
| SetDebugLevel (level : DebugLevel)
| LogDebug (data : Data)
| LogVerbose (data : Data).

Definition call (st : State) (c : Call) : State :=
  match c with
  | SetDebugLevel level => setDebugLevel level st
  | LogDebug data => logDebug data st
  | LogVerbose data => logVerbose data st
  end.

Definition calls (st : State) (cs : list Call) : State :=
  fold_left call cs st.

End Log.

End Logging.

(** A sequence of calls that only logs. *)
Definition only_logs {Data : Type} (cs : list (@Logging.Call Data)) : Prop :=
  forall level, ~ In (Logging.SetDebugLevel level) cs.

(** The data of the [logDebug] calls of a sequence, in order. *)
Fixpoint debug_data {Data : Type} (cs : list (@Logging.Call Data))
    : list Data :=
  match cs with
  | [] => []
  | Logging.LogDebug data :: rest => data :: debug_data rest
  | _ :: rest => debug_data rest
  end.

(** The data of all the log calls of a sequence, in order. *)
Fixpoint logged_data {Data : Type} (cs : list (@Logging.Call Data))
    : list Data :=
  match cs with
  | [] => []
  | Logging.LogDebug data :: rest => data :: logged_data rest
  | Logging.LogVerbose data :: rest => data :: logged_data rest
  | Logging.SetDebugLevel _ :: rest => logged_data rest
  end.

(** ** Further vocabulary *)

(** The data of a stored entry, when the container holds all of it. *)
Definition entry_data (blob : Blob) (md : EntryMetadata) : Blob :=
  bytes_in_range blob (dataStart md) (dataStart md + compressedSize md).

(** The strict order of the reported fractions that are finite. *)
Definition Number_lt (x y : RunWithTimedProgress.Number) : Prop :=
  match x, y with
  | RunWithTimedProgress.Finite p, RunWithTimedProgress.Finite q => Qlt p q
  | _, _ => False
  end.

(** The readings a frame adds to the ticks of the loop: its own when the
    loop goes on, none when the loop ends on it. *)
Definition consumed {T : Type} (task : @RunWithTimedProgress.Task T)
    (st' : @RunWithTimedProgress.State T) : list Z :=
  match task with
  | RunWithTimedProgress.Frame t =>
      if RunWithTimedProgress.looping st' then [t] else []
  | RunWithTimedProgress.WorkSettles _ => []
  end.

(** What the loop of [runWithTimedProgress] keeps besides [progress_inv]:
    [now] is the last reading taken, every reading before it was before
    the target time, and while the loop runs [stop] is set exactly when the
    body waits for it after a fulfilled operation. *)
Definition loop_inv {T : Type} (duration t0 : Z) (ticks : list Z)
    (st : @RunWithTimedProgress.State T) : Prop :=
  ticks <> [] /\
  RunWithTimedProgress.now st = last ticks t0 /\
  Forall (fun t => t < t0 + duration) (removelast ticks) /\
  (RunWithTimedProgress.looping st = true ->
   (RunWithTimedProgress.stop st = true <->
    RunWithTimedProgress.main st = RunWithTimedProgress.AwaitProgress)).

(** An entry of a kind that has no [getData]. *)
Definition sample_directory_entry : Entry :=
  {| entry_offset := 0; getData := None |}.

(** An archive cut inside the fixed header. *)
Definition sample_truncated : Blob := firstn 20 sample_container.

(** The sample archive behind 4 bytes of another file. *)
Definition sample_embedded : Blob := [x7f; x45; x4c; x46] ++ sample_container.

(** ** Proof steps shared by the invariants of [runWithTimedProgress] *)

Ltac break_inv :=
  repeat match goal with
         | H : _ /\ _ |- _ => destruct H
         | H : exists _, _ |- _ => destruct H
         end;
  subst; try discriminate.

Ltac unfold_body :=
  unfold RunWithTimedProgress.progress_done, RunWithTimedProgress.work_done,
    RunWithTimedProgress.after_race, RunWithTimedProgress.await_progress,
    RunWithTimedProgress.await_work, RunWithTimedProgress.loop_body,
    RunWithTimedProgress.end_loop, RunWithTimedProgress.set_work,
    RunWithTimedProgress.set_stop, RunWithTimedProgress.set_main,
    RunWithTimedProgress.onProgress, elapsed_fraction;
  cbn [RunWithTimedProgress.startTime RunWithTimedProgress.stop
       RunWithTimedProgress.now RunWithTimedProgress.looping
       RunWithTimedProgress.work RunWithTimedProgress.main
       RunWithTimedProgress.reported].

(** * Properties *)

(** ** Index clamping and slices *)

Lemma parseIndex_bounds (index size : Z) :
  0 <= size -> 0 <= parseIndex index size <= size.
Proof.
  intros Hs. unfold parseIndex.
  destruct (Z.ltb_spec index 0); lia.
Qed.

Lemma parseIndex_negative (index size : Z) :
  index < 0 -> parseIndex index size = Z.max (index + size) 0.
Proof.
  intros H. unfold parseIndex.
  destruct (Z.ltb_spec index 0); [reflexivity | lia].
Qed.

Lemma parseIndex_nonnegative (index size : Z) :
  0 <= index -> parseIndex index size = Z.min index size.
Proof.
  intros H. unfold parseIndex.
  destruct (Z.ltb_spec index 0); [lia | reflexivity].
Qed.

Lemma relative_bound_nonneg (size bound : Z) :
  0 <= bound -> relative_bound size bound = Z.min bound size.
Proof.
  intros H. unfold relative_bound.
  destruct (Z.ltb_spec bound 0); [lia | reflexivity].
Qed.

(** A slice between non-negative bounds is the run of bytes between them. *)
Lemma Blob_slice_bytes_in_range (b : Blob) (lo hi : Z) :
  0 <= lo -> 0 <= hi -> Blob_slice b lo hi = bytes_in_range b lo hi.
Proof.
  intros Hlo Hhi. unfold Blob_slice, bytes_in_range, Blob_size.
  rewrite !relative_bound_nonneg by assumption.
  destruct (Z_lt_le_dec lo (Z.of_nat (List.length b))) as [Hin | Hout].
  - rewrite (Z.min_l lo) by lia.
    destruct (Z_le_gt_dec hi (Z.of_nat (List.length b))) as [Hh | Hh].
    + rewrite (Z.min_l hi) by lia.
      f_equal. lia.
    + rewrite (Z.min_r hi) by lia.
      rewrite !firstn_all2; [reflexivity | |]; rewrite length_skipn; lia.
  - rewrite (Z.min_r lo) by lia.
    rewrite !skipn_all2 by lia.
    now rewrite !firstn_nil.
Qed.

(** A slice whose end is not after its start is empty. *)
Lemma Blob_slice_empty (b : Blob) (lo hi : Z) :
  0 <= hi -> hi <= lo -> Blob_slice b lo hi = [].
Proof.
  intros Hhi Hle. unfold Blob_slice.
  rewrite !relative_bound_nonneg by lia.
  replace (Z.max _ 0) with 0 by lia.
  reflexivity.
Qed.

(** The bytes of a run are the bytes of the blob at the same positions. *)
Lemma nth_error_bytes_in_range (b : Blob) (lo hi : Z) (k : nat) :
  0 <= lo ->
  nth_error (bytes_in_range b lo hi) k =
  if Z.of_nat k <? hi - lo then nth_error b (Z.to_nat lo + k) else None.
Proof.
  intros Hlo. unfold bytes_in_range.
  destruct (Z.ltb_spec (Z.of_nat k) (hi - lo)) as [Hk | Hk].
  - rewrite nth_error_firstn.
    destruct (Nat.ltb_spec k (Z.to_nat (hi - lo))); [| lia].
    apply nth_error_skipn.
  - apply nth_error_None. rewrite length_firstn. lia.
Qed.

(** ** The stored-entry reader *)

(** What [readUint8Array] of the stored-entry reader does, spelled out: one
    slice of the container, between the two clamped bounds moved to the
    data window. *)
Lemma BlobEntryReaderImpl_read (blob : Blob) (md : EntryMetadata)
    (index length : Z) :
  readUint8Array (BlobEntryReaderImpl blob md) index length =
  ([CallSlice blob
      (parseIndex index (compressedSize md) + dataStart md)
      (parseIndex (index + length) (compressedSize md) + dataStart md)],
   Fulfilled
     (Blob_slice blob
        (parseIndex index (compressedSize md) + dataStart md)
        (parseIndex (index + length) (compressedSize md) + dataStart md))).
Proof. reflexivity. Qed.

Lemma BlobEntryReaderImpl_read_empty (blob : Blob) (md : EntryMetadata)
    (index length : Z) :
  0 <= compressedSize md -> 0 <= dataStart md ->
  parseIndex (index + length) (compressedSize md)
    <= parseIndex index (compressedSize md) ->
  outcome (readUint8Array (BlobEntryReaderImpl blob md) index length)
  = Fulfilled [].
Proof.
  intros HS HD Hle. rewrite BlobEntryReaderImpl_read. unfold outcome; simpl.
  f_equal. apply Blob_slice_empty; [| lia].
  pose proof (parseIndex_bounds (index + length) _ HS). lia.
Qed.

(** C3 (as amended): [parseIndex] maps a negative index to
    [max (index + size) 0] and a non-negative one to [min index size]. On a
    stored entry of size [S], [read(S, 10)] is empty and [read(-(S+5), S)]
    starts at the beginning of the data window; [read(-1, 1)] is empty too,
    because its end bound [-1 + 1 = 0] is clamped as a non-negative index,
    to [0], which is not after the start [max (S - 1) 0]. *)
Theorem parseIndex_clamps_and_reads (blob : Blob) (md : EntryMetadata)
    (index : Z) :
  let S := compressedSize md in
  let r := BlobEntryReaderImpl blob md in
  0 <= S -> 0 <= dataStart md ->
  (index < 0 -> parseIndex index S = Z.max (index + S) 0) /\
  (0 <= index -> parseIndex index S = Z.min index S) /\
  readUint8Array r (-1) 1 =
    ([CallSlice blob (Z.max (S - 1) 0 + dataStart md) (0 + dataStart md)],
     Fulfilled []) /\
  readUint8Array r S 10 =
    ([CallSlice blob (S + dataStart md) (S + dataStart md)], Fulfilled []) /\
  readUint8Array r (- (S + 5)) S =
    ([CallSlice blob (0 + dataStart md) (Z.max (S - 5) 0 + dataStart md)],
     Fulfilled
       (bytes_in_range blob (dataStart md) (dataStart md + Z.max (S - 5) 0))).
Proof.
  intros S r HS HD. subst r.
  split; [apply parseIndex_negative |].
  split; [apply parseIndex_nonnegative |].
  rewrite !BlobEntryReaderImpl_read. fold S.
  replace (-1 + 1) with 0 by lia.
  replace (- (S + 5) + S) with (-5) by lia.
  rewrite (parseIndex_negative (-1)) by lia.
  rewrite (parseIndex_nonnegative 0) by lia.
  rewrite (parseIndex_nonnegative S) by lia.
  rewrite (parseIndex_nonnegative (S + 10)) by lia.
  rewrite (parseIndex_negative (- (S + 5))) by lia.
  rewrite (parseIndex_negative (-5)) by lia.
  replace (-1 + S) with (S - 1) by lia.
  replace (Z.min 0 S) with 0 by lia.
  replace (Z.min S S) with S by lia.
  replace (Z.min (S + 10) S) with S by lia.
  replace (Z.max (- (S + 5) + S) 0) with 0 by lia.
  replace (-5 + S) with (S - 5) by lia.
  repeat split.
  - f_equal. f_equal. apply Blob_slice_empty; lia.
  - f_equal. f_equal. apply Blob_slice_empty; lia.
  - f_equal. f_equal.
    rewrite Blob_slice_bytes_in_range by lia.
    f_equal; lia.
Qed.

Lemma parseIndex_clamps_and_reads_witness :
  parseIndex (-4) 3 = Z.max (-4 + 3) 0 /\
  parseIndex 5 3 = Z.min 5 3 /\
  readUint8Array (BlobEntryReaderImpl sample_container sample_metadata) (-1) 1
    = ([CallSlice sample_container 33 31], Fulfilled []) /\
  readUint8Array (BlobEntryReaderImpl sample_container sample_metadata) 3 10
    = ([CallSlice sample_container 34 34], Fulfilled []) /\
  readUint8Array (BlobEntryReaderImpl sample_container sample_metadata) (-8) 3
    = ([CallSlice sample_container 31 31], Fulfilled []).
Proof.
  assert (HS : 0 <= compressedSize sample_metadata) by (simpl; lia).
  assert (HD : 0 <= dataStart sample_metadata)
    by (unfold dataStart; simpl; lia).
  destruct (parseIndex_clamps_and_reads sample_container sample_metadata
              (-4) HS HD) as (Hneg & _ & Hlast & Hbeyond & Hbefore).
  destruct (parseIndex_clamps_and_reads sample_container sample_metadata
              5 HS HD) as (_ & Hpos & _).
  split; [apply Hneg; lia |]. split; [apply Hpos; lia |].
  split; [exact Hlast |]. split; [exact Hbeyond | exact Hbefore].
Defined.

(** C3, as stated, fails: on the stored entry [abc] of the sample archive,
    [read(-1, 1)] does not return the last byte [c] (it returns no byte). *)
Lemma read_minus_one_not_last_byte :
  let r := BlobEntryReaderImpl sample_container sample_metadata in
  nth_error sample_container (Z.to_nat (dataStart sample_metadata + 3 - 1))
    = Some x63 /\
  outcome (readUint8Array r (-1) 1) = Fulfilled [] /\
  outcome (readUint8Array r (-1) 1) <> Fulfilled [x63].
Proof.
  cbv zeta. split; [reflexivity |]. split; [reflexivity |].
  vm_compute. discriminate.
Qed.

(** C10 (as amended): a request whose clamped end is not after its clamped
    start yields an empty array; so do a zero length, a negative length
    whose two bounds [index] and [index + length] have the same sign, and a
    start at or beyond the size of the entry. No request raises an error,
    negative lengths included. *)
Theorem read_empty_when_end_not_after_start (blob : Blob)
    (md : EntryMetadata) (index length : Z) :
  let S := compressedSize md in
  let r := BlobEntryReaderImpl blob md in
  0 <= S -> 0 <= dataStart md ->
  (parseIndex (index + length) S <= parseIndex index S ->
   outcome (readUint8Array r index length) = Fulfilled []) /\
  (length = 0 -> outcome (readUint8Array r index length) = Fulfilled []) /\
  (length <= 0 -> index < 0 \/ 0 <= index + length ->
   outcome (readUint8Array r index length) = Fulfilled []) /\
  (S <= index -> outcome (readUint8Array r index length) = Fulfilled []) /\
  (exists bytes, outcome (readUint8Array r index length) = Fulfilled bytes).
Proof.
  intros S r HS HD. subst r.
  pose proof (parseIndex_bounds (index + length) S HS) as He.
  repeat split.
  - intros Hle. now apply BlobEntryReaderImpl_read_empty.
  - intros ->. apply BlobEntryReaderImpl_read_empty; try assumption.
    rewrite Z.add_0_r. reflexivity.
  - intros Hlen Hsign. apply BlobEntryReaderImpl_read_empty; try assumption.
    fold S. unfold parseIndex.
    destruct (Z.ltb_spec (index + length) 0), (Z.ltb_spec index 0); lia.
  - intros Hbeyond. apply BlobEntryReaderImpl_read_empty; try assumption.
    fold S. rewrite (parseIndex_nonnegative index) by lia. lia.
  - rewrite BlobEntryReaderImpl_read. eexists. reflexivity.
Qed.

Lemma read_empty_when_end_not_after_start_witness :
  let r := BlobEntryReaderImpl sample_container sample_metadata in
  outcome (readUint8Array r 2 (-1)) = Fulfilled [] /\
  outcome (readUint8Array r 1 0) = Fulfilled [] /\
  outcome (readUint8Array r (-1) (-1)) = Fulfilled [] /\
  outcome (readUint8Array r 3 2) = Fulfilled [] /\
  (exists bytes, outcome (readUint8Array r 0 (-1)) = Fulfilled bytes).
Proof.
  assert (HS : 0 <= compressedSize sample_metadata) by (simpl; lia).
  assert (HD : 0 <= dataStart sample_metadata)
    by (unfold dataStart; simpl; lia).
  cbv zeta. split; [| split; [| split; [| split]]].
  - destruct (read_empty_when_end_not_after_start sample_container
                sample_metadata 2 (-1) HS HD) as (Hle & _).
    apply Hle. vm_compute. discriminate.
  - destruct (read_empty_when_end_not_after_start sample_container
                sample_metadata 1 0 HS HD) as (_ & Hzero & _).
    apply Hzero. reflexivity.
  - destruct (read_empty_when_end_not_after_start sample_container
                sample_metadata (-1) (-1) HS HD) as (_ & _ & Hneg & _).
    apply Hneg; lia.
  - destruct (read_empty_when_end_not_after_start sample_container
                sample_metadata 3 2 HS HD) as (_ & _ & _ & Hbeyond & _).
    apply Hbeyond. simpl. lia.
  - destruct (read_empty_when_end_not_after_start sample_container
                sample_metadata 0 (-1) HS HD) as (_ & _ & _ & _ & Hany).
    exact Hany.
Defined.

(** C10, as stated, fails for a negative length: on the stored entry [abc]
    of the sample archive, [read(0, -1)] has length [-1 <= 0] and returns
    the two bytes [ab], its end bound [-1] counting from the end. *)
Lemma read_negative_length_not_empty :
  let r := BlobEntryReaderImpl sample_container sample_metadata in
  -1 <= 0 /\
  outcome (readUint8Array r 0 (-1)) = Fulfilled [x61; x62] /\
  outcome (readUint8Array r 0 (-1)) <> Fulfilled [].
Proof.
  cbv zeta. split; [lia |]. split; [reflexivity |].
  vm_compute. discriminate.
Qed.

(** C4: for every request, the slice asked of the container lies between
    the start and the end of the data window, and every position of the
    container it reads is a position of the window. *)
Theorem read_stays_in_data_window (blob : Blob) (md : EntryMetadata)
    (index length : Z) :
  let S := compressedSize md in
  let r := BlobEntryReaderImpl blob md in
  0 <= S -> 0 <= dataStart md ->
  exists start end_,
    trace (readUint8Array r index length) = [CallSlice blob start end_] /\
    dataStart md <= start <= dataStart md + S /\
    dataStart md <= end_ <= dataStart md + S /\
    (forall p,
       fst (Blob_slice_positions blob start end_) <= p
         < snd (Blob_slice_positions blob start end_) ->
       dataStart md <= p < dataStart md + S) /\
    outcome (readUint8Array r index length) =
      Fulfilled
        (bytes_in_range blob
           (fst (Blob_slice_positions blob start end_))
           (snd (Blob_slice_positions blob start end_))).
Proof.
  intros S r HS HD. subst r.
  rewrite BlobEntryReaderImpl_read. fold S.
  pose proof (parseIndex_bounds index S HS) as Hs.
  pose proof (parseIndex_bounds (index + length) S HS) as He.
  exists (parseIndex index S + dataStart md),
         (parseIndex (index + length) S + dataStart md).
  split; [reflexivity |].
  split; [lia |]. split; [lia |].
  unfold Blob_slice_positions, Blob_slice, outcome, bytes_in_range; simpl.
  rewrite !relative_bound_nonneg by lia.
  split.
  - intros p Hp. lia.
  - f_equal. f_equal.
    + f_equal. lia.
Qed.

Lemma read_stays_in_data_window_witness :
  exists start end_,
    trace (readUint8Array
             (BlobEntryReaderImpl sample_container sample_metadata) (-7) 100)
      = [CallSlice sample_container start end_] /\
    31 <= start <= 31 + 3 /\
    31 <= end_ <= 31 + 3 /\
    (forall p,
       fst (Blob_slice_positions sample_container start end_) <= p
         < snd (Blob_slice_positions sample_container start end_) ->
       31 <= p < 31 + 3) /\
    outcome (readUint8Array
               (BlobEntryReaderImpl sample_container sample_metadata)
               (-7) 100) =
      Fulfilled
        (bytes_in_range sample_container
           (fst (Blob_slice_positions sample_container start end_))
           (snd (Blob_slice_positions sample_container start end_))).
Proof.
  apply (read_stays_in_data_window sample_container sample_metadata (-7) 100);
    simpl; unfold dataStart; simpl; lia.
Defined.

(** ** The local file header *)

Lemma byte_val_range (b : byte) : 0 <= byte_val b < 256.
Proof.
  unfold byte_val. pose proof (Byte.to_N_bounded b). lia.
Qed.

Lemma lor_shiftl_8 (x y : Z) :
  0 <= x < 256 -> Z.lor x (Z.shiftl y 8) = x + 256 * y.
Proof.
  intros Hx.
  assert (Hland : Z.land x (Z.shiftl y 8) = 0).
  { apply Z.bits_inj'. intros n Hn.
    rewrite Z.land_spec, Z.bits_0.
    destruct (Z_lt_le_dec n 8) as [Hlt | Hge].
    - rewrite (Z.shiftl_spec_low y 8 n Hlt). apply andb_false_r.
    - destruct (Z.eq_dec x 0) as [-> | Hnz].
      + rewrite Z.bits_0. reflexivity.
      + rewrite (Z.bits_above_log2 x n); [reflexivity | lia |].
        assert (Z.log2 x < 8); [| lia].
        apply Z.log2_lt_pow2; simpl; lia. }
  rewrite <- Z.lxor_lor, <- Z.add_nocarry_lxor by assumption.
  rewrite Z.shiftl_mul_pow2 by lia. change (2 ^ 8) with 256. lia.
Qed.

Lemma le_value_nonneg (bs : list byte) : 0 <= le_value bs.
Proof.
  induction bs as [| b rest IH]; cbn [le_value]; [lia |].
  rewrite lor_shiftl_8 by apply byte_val_range.
  pose proof (byte_val_range b). lia.
Qed.

Lemma le_value_cons (b : byte) (rest : list byte) :
  le_value (b :: rest) = byte_val b + 256 * le_value rest.
Proof. cbn [le_value]. apply lor_shiftl_8, byte_val_range. Qed.

Lemma le_value_bound (bs : list byte) :
  0 <= le_value bs < 256 ^ Z.of_nat (List.length bs).
Proof.
  induction bs as [| b rest IH].
  - simpl. lia.
  - rewrite le_value_cons. pose proof (byte_val_range b).
    replace (Z.of_nat (List.length (b :: rest)))
      with (Z.succ (Z.of_nat (List.length rest)))
      by (simpl List.length; lia).
    rewrite Z.pow_succ_r by lia. lia.
Qed.

Lemma DataView_getUint_in_range (width : nat) (buffer : ArrayBuffer)
    (byteOffset : nat) :
  (byteOffset + width <= List.length buffer)%nat ->
  DataView_getUint width buffer (Z.of_nat byteOffset) =
  Fulfilled (le_value (firstn width (skipn byteOffset buffer))).
Proof.
  intros H. unfold DataView_getUint.
  rewrite Nat2Z.id.
  destruct (Z.leb_spec 0 (Z.of_nat byteOffset)); [| lia].
  destruct (Z.leb_spec (Z.of_nat byteOffset + Z.of_nat width)
              (Z.of_nat (List.length buffer))); [| lia].
  reflexivity.
Qed.

Lemma byte_at_skipn (blob : Blob) (o k : Z) :
  0 <= o -> 0 <= k ->
  byte_at blob (o + k) =
  byte_val (nth (Z.to_nat k) (skipn (Z.to_nat o) blob) x00).
Proof.
  intros Ho Hk. unfold byte_at. rewrite nth_skipn. do 2 f_equal. lia.
Qed.

Lemma getEntryMetadata_spec (blob : Blob) (entry : Entry) :
  let o := entry_offset entry in
  0 <= o -> o + 30 <= Blob_size blob ->
  getEntryMetadata blob entry =
  ([CallSlice blob o (o + 30)],
   Fulfilled
     {| md_offset := o;
        compressionMethod :=
          byte_at blob (o + 8) + 2 ^ 8 * byte_at blob (o + 9);
        compressedSize :=
          byte_at blob (o + 18) + 2 ^ 8 * byte_at blob (o + 19)
          + 2 ^ 16 * byte_at blob (o + 20) + 2 ^ 24 * byte_at blob (o + 21);
        uncompressedSize :=
          byte_at blob (o + 22) + 2 ^ 8 * byte_at blob (o + 23)
          + 2 ^ 16 * byte_at blob (o + 24) + 2 ^ 24 * byte_at blob (o + 25);
        headerSize :=
          30 + (byte_at blob (o + 26) + 2 ^ 8 * byte_at blob (o + 27))
             + (byte_at blob (o + 28) + 2 ^ 8 * byte_at blob (o + 29)) |}).
Proof.
  intros o Ho Hlen. unfold Blob_size in Hlen.
  unfold getEntryMetadata. fold o.
  unfold slice_arrayBuffer, ZIP_ENTRY_HEADER_BEGIN_LENGTH.
  rewrite Blob_slice_bytes_in_range by lia.
  unfold bytes_in_range.
  replace (o + 30 - o) with 30 by lia.
  rewrite !byte_at_skipn by lia.
  assert (Ht : (30 <= List.length (skipn (Z.to_nat o) blob))%nat)
    by (rewrite length_skipn; lia).
  generalize dependent (skipn (Z.to_nat o) blob). intros t Ht.
  do 30 (destruct t as [| ? t]; [simpl in Ht; lia |]).
  clear Ht.
  change (Z.to_nat 30) with 30%nat. cbn [firstn].
  unfold getUint16, getUint32.
  change 8 with (Z.of_nat 8) at 1.
  change 18 with (Z.of_nat 18) at 1.
  change 22 with (Z.of_nat 22) at 1.
  change 26 with (Z.of_nat 26) at 1.
  change 28 with (Z.of_nat 28) at 1.
  cbn [bind].
  rewrite !DataView_getUint_in_range by (cbn [List.length]; lia).
  cbn [skipn firstn lift bind ret app].
  rewrite !le_value_cons. cbn [le_value].
  repeat match goal with
         | |- context [Z.to_nat ?n] =>
             let m := eval compute in (Z.to_nat n) in
             change (Z.to_nat n) with m
         end.
  cbn [nth].
  do 3 f_equal; lia.
Qed.

(** C2: with the 30 bytes of the fixed header in the container at
    [o, o + 30), [getEntryMetadata] asks the container for exactly that
    range, once, and returns the little-endian fields: the compression
    method from bytes 8-9, the compressed size from bytes 18-21, the
    uncompressed size from bytes 22-25, and as header size 30 plus the file
    name length (bytes 26-27) plus the extra field length (bytes 28-29). *)
Theorem getEntryMetadata_decodes_header (blob : Blob) (entry : Entry) :
  let o := entry_offset entry in
  0 <= o -> o + 30 <= Blob_size blob ->
  getEntryMetadata blob entry =
  ([CallSlice blob o (o + 30)],
   Fulfilled
     {| md_offset := o;
        compressionMethod :=
          byte_at blob (o + 8) + 2 ^ 8 * byte_at blob (o + 9);
        compressedSize :=
          byte_at blob (o + 18) + 2 ^ 8 * byte_at blob (o + 19)
          + 2 ^ 16 * byte_at blob (o + 20) + 2 ^ 24 * byte_at blob (o + 21);
        uncompressedSize :=
          byte_at blob (o + 22) + 2 ^ 8 * byte_at blob (o + 23)
          + 2 ^ 16 * byte_at blob (o + 24) + 2 ^ 24 * byte_at blob (o + 25);
        headerSize :=
          30 + (byte_at blob (o + 26) + 2 ^ 8 * byte_at blob (o + 27))
             + (byte_at blob (o + 28) + 2 ^ 8 * byte_at blob (o + 29)) |}).
Proof. exact (getEntryMetadata_spec blob entry). Qed.

Lemma getEntryMetadata_decodes_header_witness :
  getEntryMetadata sample_container sample_entry =
  ([CallSlice sample_container 0 30], Fulfilled sample_metadata).
Proof.
  apply (getEntryMetadata_decodes_header sample_container sample_entry);
    vm_compute; congruence.
Defined.

Lemma Fulfilled_inj {A} (a b : A) : Fulfilled a = Fulfilled b -> a = b.
Proof. congruence. Qed.

Lemma DataView_getUint_fulfilled_inv (width : nat) (buffer : ArrayBuffer)
    (byteOffset v : Z) :
  DataView_getUint width buffer byteOffset = Fulfilled v ->
  byteOffset + Z.of_nat width <= Z.of_nat (List.length buffer).
Proof.
  unfold DataView_getUint.
  destruct (Z.leb_spec 0 byteOffset); cbn [andb]; [| discriminate].
  destruct (Z.leb_spec (byteOffset + Z.of_nat width)
              (Z.of_nat (List.length buffer))); [lia | discriminate].
Qed.

Lemma length_Blob_slice (b : Blob) (lo hi : Z) :
  0 <= lo ->
  Z.of_nat (List.length (Blob_slice b lo hi)) <= Blob_size b - lo
  \/ Blob_slice b lo hi = [].
Proof.
  intros Hlo. unfold Blob_slice, Blob_size.
  rewrite (relative_bound_nonneg _ lo) by assumption.
  destruct (Z_lt_le_dec lo (Z.of_nat (List.length b))).
  - left. rewrite length_firstn, length_skipn. lia.
  - right. rewrite Z.min_r by lia. rewrite skipn_all2 by lia.
    apply firstn_nil.
Qed.

(** The header parser succeeds only when the container holds the 30 bytes of
    the fixed header. *)
Lemma getEntryMetadata_fulfilled_inv (blob : Blob) (entry : Entry)
    (md : EntryMetadata) :
  0 <= entry_offset entry ->
  outcome (getEntryMetadata blob entry) = Fulfilled md ->
  entry_offset entry + 30 <= Blob_size blob.
Proof.
  intros Ho. unfold getEntryMetadata, slice_arrayBuffer, getUint16, getUint32.
  cbn [bind lift].
  set (h := Blob_slice blob _ _).
  destruct (DataView_getUint 2 h 8) as [v1 | e] eqn:E1; cbn [app];
    [| discriminate].
  destruct (DataView_getUint 4 h 18) as [v2 | e] eqn:E2; cbn [app];
    [| discriminate].
  destruct (DataView_getUint 4 h 22) as [v3 | e] eqn:E3; cbn [app];
    [| discriminate].
  destruct (DataView_getUint 2 h 26) as [v4 | e] eqn:E4; cbn [app];
    [| discriminate].
  destruct (DataView_getUint 2 h 28) as [v5 | e] eqn:E5; cbn [app];
    [| discriminate].
  intros _. apply DataView_getUint_fulfilled_inv in E5.
  destruct (length_Blob_slice blob (entry_offset entry)
              (entry_offset entry + ZIP_ENTRY_HEADER_BEGIN_LENGTH) Ho)
    as [Hl | Hl]; fold h in Hl.
  - lia.
  - rewrite Hl in E5. simpl in E5. lia.
Qed.

Lemma byte_at_range (blob : Blob) (p : Z) : 0 <= byte_at blob p < 256.
Proof. apply byte_val_range. Qed.

(** Metadata parsed from a container: the sizes are non-negative and the
    data starts at least 30 bytes after the header offset. *)
Lemma getEntryMetadata_fulfilled_bounds (blob : Blob) (entry : Entry)
    (md : EntryMetadata) :
  0 <= entry_offset entry ->
  outcome (getEntryMetadata blob entry) = Fulfilled md ->
  getEntryMetadata blob entry =
    ([CallSlice blob (entry_offset entry) (entry_offset entry + 30)],
     Fulfilled md) /\
  md_offset md = entry_offset entry /\
  0 <= compressedSize md /\ 30 <= headerSize md.
Proof.
  intros Ho Hmd.
  pose proof (getEntryMetadata_fulfilled_inv blob entry md Ho Hmd) as Hlen.
  pose proof (getEntryMetadata_spec blob entry Ho Hlen) as Hspec.
  cbv zeta in Hspec. rewrite Hspec in Hmd.
  cbv beta iota delta [outcome snd] in Hmd.
  apply Fulfilled_inj in Hmd. subst md. rewrite Hspec.
  cbv beta iota delta [md_offset compressedSize headerSize].
  pose proof (byte_at_range blob (entry_offset entry + 18)).
  pose proof (byte_at_range blob (entry_offset entry + 19)).
  pose proof (byte_at_range blob (entry_offset entry + 20)).
  pose proof (byte_at_range blob (entry_offset entry + 21)).
  pose proof (byte_at_range blob (entry_offset entry + 26)).
  pose proof (byte_at_range blob (entry_offset entry + 27)).
  pose proof (byte_at_range blob (entry_offset entry + 28)).
  pose proof (byte_at_range blob (entry_offset entry + 29)).
  repeat split; try reflexivity; lia.
Qed.

(** ** The entry accessor *)

Lemma getEntryMetadata_trace (blob : Blob) (entry : Entry) :
  trace (getEntryMetadata blob entry) =
  [CallSlice blob (entry_offset entry) (entry_offset entry + 30)].
Proof.
  unfold getEntryMetadata, slice_arrayBuffer, getUint16, getUint32.
  cbn [bind lift].
  set (h := Blob_slice blob _ _).
  destruct (DataView_getUint 2 h 8); cbn [app]; [| reflexivity].
  destruct (DataView_getUint 4 h 18); cbn [app]; [| reflexivity].
  destruct (DataView_getUint 4 h 22); cbn [app]; [| reflexivity].
  destruct (DataView_getUint 2 h 26); cbn [app]; [| reflexivity].
  destruct (DataView_getUint 2 h 28); reflexivity.
Qed.

Lemma getEntryMetadata_fulfilled (blob : Blob) (entry : Entry)
    (md : EntryMetadata) :
  outcome (getEntryMetadata blob entry) = Fulfilled md ->
  getEntryMetadata blob entry =
  ([CallSlice blob (entry_offset entry) (entry_offset entry + 30)],
   Fulfilled md).
Proof.
  intros Hmd. rewrite <- Hmd, <- getEntryMetadata_trace.
  unfold trace, outcome. apply surjective_pairing.
Qed.

Section EntryAccessor.

Variable BlobReader : Blob -> Reader.
Variable Reader_size : Z.

Lemma init_stored (this : BlobEntryReader) (md : EntryMetadata)
    (t : list HostCall) :
  getEntryMetadata (this_blob this) (this_entry this) = (t, Fulfilled md) ->
  compressionMethod md = 0 ->
  BlobEntryReader_init BlobReader this =
  (t, Fulfilled
        (set_size
           (set_reader this (BlobEntryReaderImpl (this_blob this) md))
           (compressedSize md))).
Proof.
  intros Hmd Hm. unfold BlobEntryReader_init. rewrite Hmd.
  cbn [bind]. rewrite Hm. cbn. rewrite app_nil_r. reflexivity.
Qed.

Lemma init_decoded (this : BlobEntryReader) (md : EntryMetadata)
    (t : list HostCall)
    (decode : BlobWriter -> option EntryGetDataOptions -> Outcome Blob)
    (entryBlob : Blob) :
  getEntryMetadata (this_blob this) (this_entry this) = (t, Fulfilled md) ->
  compressionMethod md <> 0 ->
  getData (this_entry this) = Some decode ->
  decode (mkBlobWriter (this_mimeString this)) (this_options this)
    = Fulfilled entryBlob ->
  BlobEntryReader_init BlobReader this =
  (t ++ [CallGetData (this_mimeString this) (this_options this)],
   Fulfilled
     (set_size (set_reader this (BlobReader entryBlob))
        (size (BlobReader entryBlob)))).
Proof.
  intros Hmd Hm Hget Hdec. unfold BlobEntryReader_init. rewrite Hmd.
  cbn [bind].
  destruct (Z.eqb_spec (compressionMethod md) 0) as [E | _];
    [contradiction |].
  cbn [negb]. unfold zipGetData, call_getData. rewrite Hget.
  cbn [writer_mime]. rewrite Hdec. cbn. reflexivity.
Qed.

(** C5: [init] parses the metadata and branches on [compressionMethod].
    For method 0 it installs the stored-entry reader over the container,
    without any decode; otherwise it decodes the entry with one call of
    [getData] and installs the library's reader over the decoded blob. In
    both cases the accessor's size is the size of the installed reader and
    every read is the read of that reader, trace and outcome. *)
Theorem init_selects_reader_and_forwards (blob : Blob) (entry : Entry)
    (mime : option string) (options : option EntryGetDataOptions)
    (md : EntryMetadata) :
  let this0 := new_BlobEntryReader Reader_size blob entry mime options in
  let header :=
    CallSlice blob (entry_offset entry) (entry_offset entry + 30) in
  outcome (getEntryMetadata blob entry) = Fulfilled md ->
  (compressionMethod md = 0 ->
   exists this,
     BlobEntryReader_init BlobReader this0 = ([header], Fulfilled this) /\
     this_reader this = Some (BlobEntryReaderImpl blob md) /\
     this_size this = size (BlobEntryReaderImpl blob md) /\
     forall index length,
       BlobEntryReader_readUint8Array this index length =
       readUint8Array (BlobEntryReaderImpl blob md) index length) /\
  (compressionMethod md <> 0 ->
   forall decode entryBlob,
     getData entry = Some decode ->
     decode (mkBlobWriter mime) options = Fulfilled entryBlob ->
     exists this,
       BlobEntryReader_init BlobReader this0 =
         ([header; CallGetData mime options], Fulfilled this) /\
       this_reader this = Some (BlobReader entryBlob) /\
       this_size this = size (BlobReader entryBlob) /\
       forall index length,
         BlobEntryReader_readUint8Array this index length =
         readUint8Array (BlobReader entryBlob) index length).
Proof.
  intros this0 header Hmd.
  apply getEntryMetadata_fulfilled in Hmd. fold header in Hmd.
  split.
  - intros Hm. eexists. split.
    + apply (init_stored this0 md [header]); assumption.
    + repeat split.
  - intros Hm decode entryBlob Hget Hdec. eexists. split.
    + apply (init_decoded this0 md [header] decode entryBlob); assumption.
    + repeat split.
Qed.

(** C1: on a stored entry with header offset [o >= 0], the initialised
    accessor has the size [S] declared in the header, and [read(0, S)]
    returns the direct slice of the container between [o + headerSize]
    and [o + headerSize + S], that is the container's bytes at these
    positions; [read(index, length)] returns the container's bytes
    between the two clamped bounds moved by [o + headerSize]. *)
Theorem stored_read_is_container_slice (blob : Blob) (entry : Entry)
    (mime : option string) (options : option EntryGetDataOptions)
    (md : EntryMetadata) :
  let this0 := new_BlobEntryReader Reader_size blob entry mime options in
  let start := entry_offset entry + headerSize md in
  0 <= entry_offset entry ->
  outcome (getEntryMetadata blob entry) = Fulfilled md ->
  compressionMethod md = 0 ->
  exists this,
    outcome (BlobEntryReader_init BlobReader this0) = Fulfilled this /\
    let S := this_size this in
    S = compressedSize md /\
    outcome (BlobEntryReader_readUint8Array this 0 S)
      = Fulfilled (Blob_slice blob start (start + S)) /\
    Blob_slice blob start (start + S)
      = bytes_in_range blob start (start + S) /\
    (forall k : nat,
       nth_error (Blob_slice blob start (start + S)) k =
       if Z.of_nat k <? S then nth_error blob (Z.to_nat start + k)
       else None) /\
    (forall index length,
       outcome (BlobEntryReader_readUint8Array this index length)
       = Fulfilled
           (bytes_in_range blob
              (start + parseIndex index S)
              (start + parseIndex (index + length) S))).
Proof.
  intros this0 start Ho Hmd Hm.
  destruct (getEntryMetadata_fulfilled_bounds blob entry md Ho Hmd)
    as (Hrun & Hoff & HS & HH).
  eexists. split.
  - rewrite (init_stored this0 md _ Hrun Hm). reflexivity.
  - cbn [this_size set_size].
    assert (Hstart : dataStart md = start)
      by (unfold dataStart, start; now rewrite Hoff).
    split; [reflexivity |].
    unfold BlobEntryReader_readUint8Array.
    cbn [this_reader set_size set_reader this0 this_blob
         new_BlobEntryReader].
    assert (Hslice : Blob_slice blob start (start + compressedSize md)
                     = bytes_in_range blob start
                         (start + compressedSize md))
      by (apply Blob_slice_bytes_in_range; lia).
    split; [| split; [exact Hslice | split]].
    + rewrite BlobEntryReaderImpl_read, Hstart.
      rewrite (parseIndex_nonnegative 0) by lia.
      rewrite Z.add_0_l, (parseIndex_nonnegative (compressedSize md)) by lia.
      rewrite Z.min_l, Z.min_id by lia.
      cbn [outcome snd]. do 2 f_equal; lia.
    + intros k. rewrite Hslice, nth_error_bytes_in_range by lia.
      replace (start + compressedSize md - start) with (compressedSize md)
        by lia.
      reflexivity.
    + intros index length.
      rewrite BlobEntryReaderImpl_read, Hstart. cbn [outcome snd].
      pose proof (parseIndex_bounds index _ HS).
      pose proof (parseIndex_bounds (index + length) _ HS).
      rewrite Blob_slice_bytes_in_range by lia.
      do 2 f_equal; lia.
Qed.

(** C9: a read on an accessor that [init] has not completed on is rejected
    with a [TypeError], the inner reader being undefined; it makes no
    request and does not return an empty array. *)
Theorem read_before_init_rejects (blob : Blob) (entry : Entry)
    (mime : option string) (options : option EntryGetDataOptions)
    (index length : Z) :
  let this0 := new_BlobEntryReader Reader_size blob entry mime options in
  this_reader this0 = None /\
  BlobEntryReader_readUint8Array this0 index length
    = ([], Rejected TypeError) /\
  outcome (BlobEntryReader_readUint8Array this0 index length)
    <> Fulfilled [].
Proof.
  cbv zeta. split; [reflexivity |]. split; [reflexivity |].
  unfold BlobEntryReader_readUint8Array, outcome. simpl. discriminate.
Qed.

End EntryAccessor.

Lemma init_selects_reader_and_forwards_witness :
  (exists this,
     BlobEntryReader_init sample_BlobReader
       (new_BlobEntryReader 0 sample_container sample_entry None None)
     = ([CallSlice sample_container 0 30], Fulfilled this) /\
     this_size this = 3) /\
  (exists this,
     BlobEntryReader_init sample_BlobReader
       (new_BlobEntryReader 0 sample_deflated sample_entry None None)
     = ([CallSlice sample_deflated 0 30; CallGetData None None],
        Fulfilled this) /\
     this_size this = 3 /\
     BlobEntryReader_readUint8Array this 1 2 =
     readUint8Array (sample_BlobReader [x61; x62; x63]) 1 2).
Proof.
  split.
  - destruct (init_selects_reader_and_forwards sample_BlobReader 0
                sample_container sample_entry None None sample_metadata
                eq_refl) as [Hstored _].
    destruct (Hstored eq_refl) as (this & Hinit & _ & Hsize & _).
    exists this. split; [exact Hinit | exact Hsize].
  - destruct (init_selects_reader_and_forwards sample_BlobReader 0
                sample_deflated sample_entry None None
                sample_deflated_metadata eq_refl) as [_ Hdecoded].
    assert (Hm : compressionMethod sample_deflated_metadata <> 0)
      by (simpl; lia).
    destruct (Hdecoded Hm sample_decode [x61; x62; x63] eq_refl eq_refl)
      as (this & Hinit & _ & Hsize & Hread).
    exists this. split; [exact Hinit |]. split; [exact Hsize |].
    apply Hread.
Defined.

Lemma stored_read_is_container_slice_witness :
  exists this,
    outcome (BlobEntryReader_init sample_BlobReader
               (new_BlobEntryReader 0 sample_container sample_entry
                  None None))
      = Fulfilled this /\
    this_size this = 3 /\
    outcome (BlobEntryReader_readUint8Array this 0 3)
      = Fulfilled [x61; x62; x63] /\
    outcome (BlobEntryReader_readUint8Array this (-2) 5)
      = Fulfilled [x62; x63].
Proof.
  assert (Ho : 0 <= entry_offset sample_entry) by (simpl; lia).
  destruct (stored_read_is_container_slice sample_BlobReader 0
              sample_container sample_entry None None sample_metadata
              Ho eq_refl eq_refl)
    as (this & Hinit & Hsize & Hfull & _ & _ & Hany).
  exists this. split; [exact Hinit |].
  change (this_size this = 3) in Hsize.
  rewrite Hsize in Hfull, Hany.
  split; [exact Hsize |]. split; [exact Hfull |].
  exact (Hany (-2) 5).
Defined.

(** ** zipGetData *)

(** A property read gives the value of the property the object carries,
    and [undefined] when it carries none. *)
Lemma get_prop_find_prop (props : list (string * JsValue)) (key : string) :
  get_prop props key =
  match find_prop props key with
  | Some v => v
  | None => JsUndefined
  end.
Proof.
  induction props as [| [k v] rest IH]; cbn [get_prop find_prop];
    [reflexivity |].
  destruct (String.eqb k key); [reflexivity | exact IH].
Qed.

(** C8 (as amended): [zipGetData] returns the result of the decode call
    unchanged. When the call throws a [ProgressEvent] of type [error] whose
    target is not null, it throws what the read [target.error] gives
    instead: the value [X] of the [error] property when the target carries
    one, and [undefined] when the target carries none (the code tests the
    target, not the property). It rethrows every other value [Y]
    unchanged: a value that is no [ProgressEvent], one of another type, one
    whose target is null. The decode is called once. *)
Theorem zipGetData_unwraps_progress_event (entry : Entry)
    (writer : BlobWriter) (options : option EntryGetDataOptions)
    (decode : BlobWriter -> option EntryGetDataOptions -> Outcome Blob) :
  let call := CallGetData (writer_mime writer) options in
  getData entry = Some decode ->
  (forall blob,
     decode writer options = Fulfilled blob ->
     zipGetData entry writer options = ([call], Fulfilled blob)) /\
  (forall target X,
     decode writer options = Rejected (JsProgressEvent "error" (Some target)) ->
     find_prop target "error" = Some X ->
     zipGetData entry writer options = ([call], Rejected X)) /\
  (forall target,
     decode writer options = Rejected (JsProgressEvent "error" (Some target)) ->
     find_prop target "error" = None ->
     zipGetData entry writer options = ([call], Rejected JsUndefined)) /\
  (forall type,
     type <> "error"%string ->
     forall target,
       decode writer options = Rejected (JsProgressEvent type target) ->
       zipGetData entry writer options
       = ([call], Rejected (JsProgressEvent type target))) /\
  (forall type,
     decode writer options = Rejected (JsProgressEvent type None) ->
     zipGetData entry writer options
     = ([call], Rejected (JsProgressEvent type None))) /\
  (forall Y,
     decode writer options = Rejected Y ->
     (forall target, Y <> JsProgressEvent "error" (Some target)) ->
     zipGetData entry writer options = ([call], Rejected Y)).
Proof.
  intros call Hget. unfold zipGetData, call_getData. rewrite Hget.
  fold call.
  assert (Hother : forall Y,
             decode writer options = Rejected Y ->
             (forall target, Y <> JsProgressEvent "error" (Some target)) ->
             try_catch ([call], decode writer options)
               (fun e =>
                  match e with
                  | JsProgressEvent type (Some target) =>
                      if String.eqb type "error"
                      then throw (get_prop target "error")
                      else throw e
                  | _ => throw e
                  end)
             = ([call], Rejected Y)).
  { intros Y -> Hno. unfold try_catch.
    destruct Y as [| n m | n m t | type [target |] | props];
      try reflexivity.
    destruct (String.eqb_spec type "error") as [-> | Hne];
      [| reflexivity].
    now contradiction (Hno target). }
  split; [| split; [| split; [| split; [| split]]]].
  - intros blob ->. reflexivity.
  - intros target X -> Hfind. cbn.
    rewrite get_prop_find_prop, Hfind. reflexivity.
  - intros target -> Hfind. cbn.
    rewrite get_prop_find_prop, Hfind. reflexivity.
  - intros type Htype target Hdec. apply Hother; [exact Hdec |].
    intros target' [= -> _]. now apply Htype.
  - intros type Hdec. apply Hother; [exact Hdec |].
    intros target'. discriminate.
  - exact Hother.
Qed.

Lemma zipGetData_unwraps_progress_event_witness :
  zipGetData sample_failing_entry (mkBlobWriter None) None
    = ([CallGetData None None], Rejected sample_read_error) /\
  zipGetData sample_fieldless_entry (mkBlobWriter None) None
    = ([CallGetData None None], Rejected JsUndefined) /\
  zipGetData sample_aborted_entry (mkBlobWriter None) None
    = ([CallGetData None None], Rejected sample_abort_error) /\
  zipGetData sample_entry (mkBlobWriter None) None
    = ([CallGetData None None], Fulfilled [x61; x62; x63]).
Proof.
  split; [| split; [| split]].
  - destruct (zipGetData_unwraps_progress_event sample_failing_entry
                (mkBlobWriter None) None sample_failing_decode eq_refl)
      as (_ & Hwrapped & _).
    exact (Hwrapped _ _ eq_refl eq_refl).
  - destruct (zipGetData_unwraps_progress_event sample_fieldless_entry
                (mkBlobWriter None) None sample_fieldless_decode eq_refl)
      as (_ & _ & Hfieldless & _).
    exact (Hfieldless _ eq_refl eq_refl).
  - destruct (zipGetData_unwraps_progress_event sample_aborted_entry
                (mkBlobWriter None) None sample_aborted_decode eq_refl)
      as (_ & _ & _ & _ & _ & Hother).
    apply Hother; [reflexivity |]. intros target. discriminate.
  - destruct (zipGetData_unwraps_progress_event sample_entry
                (mkBlobWriter None) None sample_decode eq_refl)
      as (Hok & _).
    exact (Hok _ eq_refl).
Defined.

(** C8, as stated, fails on a [ProgressEvent] of type [error] whose target
    is not null but carries no [error] property: such a value is not a
    wrapped error with an error field, so it counts among the other values
    [Y], yet it is not rethrown: [undefined] is thrown in its place. *)
Lemma fieldless_target_is_not_rethrown :
  find_prop sample_fieldless_target "error" = None /\
  sample_fieldless_decode (mkBlobWriter None) None
    = Rejected sample_fieldless_event /\
  zipGetData sample_fieldless_entry (mkBlobWriter None) None
    = ([CallGetData None None], Rejected JsUndefined) /\
  outcome (zipGetData sample_fieldless_entry (mkBlobWriter None) None)
    <> Rejected sample_fieldless_event.
Proof.
  split; [reflexivity |]. split; [reflexivity |]. split; [reflexivity |].
  vm_compute. discriminate.
Qed.

(** ** runWithTimeout *)

Section RacedTimeout.

Context {T : Type}.
Variable timeout : Z.

Import RunWithTimeout.

Local Abbreviation State := (@RunWithTimeout.State T).
Local Abbreviation initial := (@RunWithTimeout.initial T).
Local Abbreviation step := (@RunWithTimeout.step T timeout).
Local Abbreviation run := (@RunWithTimeout.run T timeout).
Local Abbreviation timer_won := (@timer_won T timeout).

Lemma step_promise_first (o : Outcome T) :
  step initial (PromiseSettles o) = Some (promise_won o).
Proof. destruct o; reflexivity. Qed.

Lemma step_timer_first : step initial TimerFires = Some (timer_won true).
Proof. reflexivity. Qed.

Lemma step_promise_after_timer (o : Outcome T) :
  step (timer_won true) (PromiseSettles o) = Some (timer_won false).
Proof. destruct o; reflexivity. Qed.

Lemma promise_won_final (o : Outcome T) (task : @Task T) :
  step (promise_won o) task = None.
Proof. destruct task; reflexivity. Qed.

Lemma timer_won_final (task : @Task T) : step (timer_won false) task = None.
Proof. destruct task; reflexivity. Qed.

Lemma run_final (st st' : State) (tasks : list (@Task T)) :
  (forall task, step st task = None) ->
  run st tasks = Some st' -> tasks = [] /\ st' = st.
Proof.
  intros Hfinal. destruct tasks as [| task rest]; cbn [RunWithTimeout.run].
  - intros [= <-]. split; reflexivity.
  - rewrite Hfinal. discriminate.
Qed.

(** The reachable states: what each order of the two tasks leads to. *)
Lemma run_cases (tasks : list (@Task T)) (st : State) :
  run initial tasks = Some st ->
  (tasks = [] /\ st = initial) \/
  (exists o, tasks = [PromiseSettles o] /\ st = promise_won o) \/
  (tasks = [TimerFires] /\ st = timer_won true) \/
  (exists o, tasks = [TimerFires; PromiseSettles o] /\ st = timer_won false).
Proof.
  destruct tasks as [| [| o] rest]; cbn [RunWithTimeout.run].
  - intros [= <-]. left. split; reflexivity.
  - rewrite step_timer_first.
    destruct rest as [| [| o] rest']; cbn [RunWithTimeout.run].
    + intros [= <-]. right. right. left. split; reflexivity.
    + discriminate.
    + rewrite step_promise_after_timer.
      intros Hrun. apply run_final in Hrun; [| apply timer_won_final].
      destruct Hrun as [-> ->]. right. right. right.
      exists o. split; reflexivity.
  - rewrite step_promise_first.
    intros Hrun. apply run_final in Hrun; [| apply promise_won_final].
    destruct Hrun as [-> ->]. right. left. exists o. split; reflexivity.
Qed.

(** C6: in every schedule of the two tasks, if the wrapped promise settles
    before the timer fires then the returned promise takes its outcome,
    the timer is cleared, no task can follow and [reject] is never called
    with a timeout error; if the timer fires first then the returned
    promise is rejected with a [TimeoutError] whose [timeout] is the one
    given, and the outcome of the wrapped promise, if it comes, is not
    passed on; [resolve] or [reject] is called at most once. *)
Theorem runWithTimeout_reports_one_outcome
    (tasks : list (@RunWithTimeout.Task T)) (st : State) :
  run initial tasks = Some st ->
  (forall o rest,
     tasks = PromiseSettles o :: rest ->
     rest = [] /\ result st = Some o /\ tid st = Cleared /\
     timedOut st = false /\ settle_calls st = [o]) /\
  (forall rest,
     tasks = TimerFires :: rest ->
     (exists message,
        result st =
        Some (Rejected (JsTimeoutError "TimeoutError" message timeout))) /\
     timedOut st = true /\
     settle_calls st = [Rejected (new_TimeoutError timeout)] /\
     (rest = [] \/ exists o, rest = [PromiseSettles o])) /\
  (List.length (settle_calls st) <= 1)%nat.
Proof.
  intros Hrun.
  destruct (run_cases tasks st Hrun)
    as [[-> ->] | [(o & -> & ->) | [[-> ->] | (o & -> & ->)]]].
  - repeat split; try discriminate. cbn. lia.
  - split; [| split; [discriminate | cbn; lia]].
    intros o' rest [= <- <-]. repeat split.
  - split; [discriminate |]. split; [| cbn; lia].
    intros rest [= <-]. split; [eexists; reflexivity |].
    repeat split. left. reflexivity.
  - split; [discriminate |]. split; [| cbn; lia].
    intros rest [= <-]. split; [eexists; reflexivity |].
    repeat split. right. exists o. reflexivity.
Qed.

End RacedTimeout.

Lemma runWithTimeout_reports_one_outcome_witness :
  (RunWithTimeout.run 5000 RunWithTimeout.initial
     [RunWithTimeout.PromiseSettles (Fulfilled 7)]
   = Some (promise_won (Fulfilled 7))) /\
  (RunWithTimeout.result (promise_won (Fulfilled 7)) = Some (Fulfilled 7)) /\
  (RunWithTimeout.run 5000 RunWithTimeout.initial
     [RunWithTimeout.TimerFires; RunWithTimeout.PromiseSettles (Fulfilled 7)]
   = Some (timer_won 5000 false)) /\
  (RunWithTimeout.settle_calls (@timer_won Z 5000 false)
   = [Rejected (RunWithTimeout.new_TimeoutError 5000)]).
Proof.
  split; [reflexivity |]. split.
  - destruct (runWithTimeout_reports_one_outcome 5000
                [RunWithTimeout.PromiseSettles (Fulfilled 7)]
                (promise_won (Fulfilled 7)) eq_refl) as (Hfirst & _ & _).
    destruct (Hfirst (Fulfilled 7) [] eq_refl) as (_ & Hres & _).
    exact Hres.
  - split; [reflexivity |].
    destruct (runWithTimeout_reports_one_outcome 5000
                [RunWithTimeout.TimerFires;
                 RunWithTimeout.PromiseSettles (Fulfilled 7)]
                (timer_won 5000 false) eq_refl) as (_ & Htimer & _).
    destruct (Htimer _ eq_refl) as (_ & _ & Hcalls & _).
    exact Hcalls.
Defined.

(** ** runWithTimedProgress *)

Lemma Forall_removelast {A} (P : A -> Prop) (l : list A) :
  Forall P l -> Forall P (removelast l).
Proof.
  induction 1 as [| a l Ha Hl IH]; [constructor |].
  destruct l as [| b l']; [constructor |].
  change (removelast (a :: b :: l')) with (a :: removelast (b :: l')).
  constructor; assumption.
Qed.

Lemma StronglySorted_removelast {A} (R : A -> A -> Prop) (l : list A) :
  StronglySorted R l -> StronglySorted R (removelast l).
Proof.
  induction 1 as [| a l Hl IH Ha]; [constructor |].
  destruct l as [| b l']; [constructor |].
  change (removelast (a :: b :: l')) with (a :: removelast (b :: l')).
  constructor; [exact IH |]. now apply Forall_removelast.
Qed.

Lemma StronglySorted_map {A B} (R : A -> A -> Prop) (Q : B -> B -> Prop)
    (f : A -> B) (l : list A) :
  (forall a b, R a b -> Q (f a) (f b)) ->
  StronglySorted R l -> StronglySorted Q (map f l).
Proof.
  intros Hmono. induction 1 as [| a l Hl IH Ha]; cbn [map]; constructor.
  - exact IH.
  - apply Forall_map. eapply Forall_impl; [| exact Ha]. intros b. apply Hmono.
Qed.

Lemma elapsed_fraction_monotone (duration t0 a b : Z) :
  0 < duration -> a <= b ->
  Number_le (elapsed_fraction duration t0 a) (elapsed_fraction duration t0 b).
Proof.
  intros Hd Hab. unfold elapsed_fraction, RunWithTimedProgress.divide.
  destruct (Z.eqb_spec duration 0) as [-> | _]; [lia |].
  cbn [Number_le]. rewrite !Qred_correct.
  unfold Qle. cbn [Qnum Qden].
  rewrite Z.sgn_pos by assumption.
  apply Z.mul_le_mono_nonneg_r; lia.
Qed.

Lemma elapsed_fraction_start (duration t0 : Z) :
  0 < duration -> elapsed_fraction duration t0 t0 = RunWithTimedProgress.zero.
Proof.
  intros Hd. unfold elapsed_fraction, RunWithTimedProgress.divide.
  destruct (Z.eqb_spec duration 0) as [-> | _]; [lia |].
  rewrite Z.sub_diag. reflexivity.
Qed.

Section TimedProgress.

Context {T : Type}.
Variable duration : Z.

Import RunWithTimedProgress.

Local Abbreviation State := (@RunWithTimedProgress.State T).
Local Abbreviation Task := (@RunWithTimedProgress.Task T).
Local Abbreviation step := (@RunWithTimedProgress.step T duration).
Local Abbreviation run := (@RunWithTimedProgress.run T duration).
Local Abbreviation start := (@RunWithTimedProgress.start T duration).

Lemma start_inv (t0 t1 : Z) : progress_inv duration t0 [t1] (start t0 t1).
Proof. repeat split. Qed.

(** One task keeps the invariant; a frame on which the loop goes on adds
    its reading to the ticks. *)
Lemma step_inv (t0 : Z) (ticks : list Z) (st st' : State) (task : Task) :
  progress_inv duration t0 ticks st ->
  step st task = Some st' ->
  progress_inv duration t0
    (ticks ++ match task with
              | Frame t => if looping st' then [t] else []
              | WorkSettles _ => []
              end) st'.
Proof.
  intros (Hstart & Hrep & Hmain) Hstep.
  destruct st as [t0' stop0 now0 looping0 work0 main0 reported0].
  cbn [startTime reported main looping work RunWithTimedProgress.stop]
    in Hstart, Hrep, Hmain.
  destruct task as [t | o]; cbn [RunWithTimedProgress.step looping work]
    in Hstep.
  - destruct looping0; [| discriminate].
    injection Hstep as <-.
    destruct (negb stop0 && (now0 <? t0' + duration)).
    + destruct main0; break_inv; unfold progress_inv; unfold_body; cbn;
        rewrite ?app_nil_r, ?map_app, <- ?app_assoc; repeat split; eauto.
    + destruct main0; break_inv; unfold progress_inv; unfold_body; cbn;
        rewrite ?app_nil_r; repeat split; eauto.
  - destruct work0 as [w |]; [discriminate |].
    injection Hstep as <-.
    destruct main0; break_inv; destruct o; unfold progress_inv;
      unfold_body; cbn; rewrite ?app_nil_r; repeat split; eauto.
Qed.

Lemma step_work_looping (st st' : State) (o : Outcome T) :
  step st (WorkSettles o) = Some st' -> looping st' = looping st.
Proof.
  cbn [RunWithTimedProgress.step].
  destruct (work st); [discriminate |]. intros [= <-].
  destruct st as [t0 stop0 now0 looping0 work0 main0 reported0].
  destruct main0, o, looping0; reflexivity.
Qed.

(** Without frames the loop stays as it is. *)
Lemma run_no_frames (tasks : list Task) (st st' : State) :
  run st tasks = Some st' -> frames tasks = [] -> looping st' = looping st.
Proof.
  revert st. induction tasks as [| [t | o] rest IH]; intros st;
    cbn [RunWithTimedProgress.run frames].
  - intros [= <-] _. reflexivity.
  - discriminate.
  - destruct (step st (WorkSettles o)) as [st1 |] eqn:Hstep; [| discriminate].
    intros Hrun Hfr. rewrite (IH st1 Hrun Hfr).
    exact (step_work_looping st st1 o Hstep).
Qed.

(** Once the loop has ended, the host has no frame to deliver to it. *)
Lemma run_not_looping (tasks : list Task) (st st' : State) :
  looping st = false -> run st tasks = Some st' ->
  frames tasks = [] /\ looping st' = false.
Proof.
  revert st. induction tasks as [| [t | o] rest IH]; intros st Hl;
    cbn [RunWithTimedProgress.run frames].
  - intros [= <-]. split; [reflexivity | exact Hl].
  - cbn [RunWithTimedProgress.step]. rewrite Hl. discriminate.
  - destruct (step st (WorkSettles o)) as [st1 |] eqn:Hstep; [| discriminate].
    apply IH. rewrite (step_work_looping st st1 o Hstep). exact Hl.
Qed.

(** The ticks of a whole schedule: every frame is a tick, except the one on
    which the loop ends. *)
Lemma run_inv (t0 : Z) (tasks : list Task) (ticks : list Z)
    (st st' : State) :
  progress_inv duration t0 ticks st ->
  run st tasks = Some st' ->
  progress_inv duration t0
    (ticks ++ if looping st' then frames tasks
              else removelast (frames tasks)) st'.
Proof.
  revert ticks st.
  induction tasks as [| task rest IH]; intros ticks st Hinv;
    cbn [RunWithTimedProgress.run].
  - intros [= <-]. cbn [frames removelast].
    destruct (looping st); now rewrite app_nil_r.
  - destruct (step st task) as [st1 |] eqn:Hstep; [| discriminate].
    intros Hrun.
    pose proof (step_inv t0 ticks st st1 task Hinv Hstep) as Hinv1.
    pose proof (IH _ _ Hinv1 Hrun) as Hinv'.
    destruct task as [t | o]; cbn [frames].
    + destruct (looping st1) eqn:Hl1.
      * rewrite <- app_assoc in Hinv'. cbn [app] in Hinv'.
        destruct (looping st') eqn:Hl'; [exact Hinv' |].
        destruct (frames rest) as [| t' fs] eqn:Hfr.
        -- pose proof (run_no_frames rest st1 st' Hrun Hfr). congruence.
        -- exact Hinv'.
      * destruct (run_not_looping rest st1 st' Hl1 Hrun) as [Hfr Hl'].
        rewrite Hl', Hfr in Hinv' |- *. cbn [removelast] in Hinv' |- *.
        rewrite !app_nil_r in Hinv'. rewrite app_nil_r. exact Hinv'.
    + rewrite app_nil_r in Hinv'. exact Hinv'.
Qed.

(** C7 (as amended): the first report is [0.0]; it is followed by one
    report [elapsed / duration] for each reading of the clock the loop
    takes, and these are non-decreasing when the readings are and the
    duration is positive. The function returns exactly when the loop has
    ended and the operation is fulfilled, whichever comes first, and then
    the last report is [1.0], issued after both. When the operation is
    rejected the function throws the rejection and never reports the
    closing [1.0]. *)
Theorem runWithTimedProgress_reports (t0 t1 : Z) (tasks : list Task)
    (st : State) :
  run (start t0 t1) tasks = Some st ->
  let ticks :=
    t1 :: (if looping st then frames tasks else removelast (frames tasks)) in
  reported st =
    zero :: map (elapsed_fraction duration t0) ticks
         ++ final_report (main st) /\
  hd_error (reported st) = Some zero /\
  (main st = Returned <->
   looping st = false /\ exists v, work st = Some (Fulfilled v)) /\
  (main st = Returned -> last (reported st) zero = one) /\
  (forall e, work st = Some (Rejected e) ->
             main st = Threw e /\ final_report (main st) = []) /\
  (0 < duration -> StronglySorted Z.le (t0 :: t1 :: frames tasks) ->
   StronglySorted Number_le
     (zero :: map (elapsed_fraction duration t0) ticks)).
Proof.
  intros Hrun ticks.
  pose proof (run_inv t0 tasks [t1] _ st (start_inv t0 t1) Hrun) as Hinv.
  cbn [app] in Hinv. fold ticks in Hinv.
  destruct Hinv as (Hstart & Hrep & Hmain).
  split; [exact Hrep |].
  split; [rewrite Hrep; reflexivity |].
  split; [| split; [| split]].
  - destruct (main st); break_inv; split; try discriminate; intros;
      break_inv; try congruence; eauto.
  - intros Hret. rewrite Hrep, Hret. cbn [final_report].
    change (zero :: map (elapsed_fraction duration t0) ticks ++ [one])
      with ((zero :: map (elapsed_fraction duration t0) ticks) ++ [one]).
    apply last_last.
  - intros e He. destruct (main st); break_inv; try congruence.
    rewrite He in Hmain. split; [congruence | reflexivity].
  - intros Hd Hsorted.
    rewrite <- (elapsed_fraction_start duration t0 Hd).
    change (StronglySorted Number_le
              (map (elapsed_fraction duration t0) (t0 :: ticks))).
    apply (StronglySorted_map Z.le).
    + intros a b. now apply elapsed_fraction_monotone.
    + apply StronglySorted_inv in Hsorted. destruct Hsorted as [Hs Hall].
      constructor.
      * subst ticks. destruct (looping st); [exact Hs |].
        apply StronglySorted_inv in Hs. destruct Hs as [Hs' Hall'].
        constructor.
        -- now apply StronglySorted_removelast.
        -- now apply Forall_removelast.
      * subst ticks. destruct (looping st); [exact Hall |].
        apply Forall_cons_iff in Hall. destruct Hall as [H1 Hall].
        constructor; [exact H1 |]. now apply Forall_removelast.
Qed.

End TimedProgress.

Lemma runWithTimedProgress_reports_witness :
  (exists st,
     RunWithTimedProgress.run 16 (RunWithTimedProgress.start 16 0 1)
       sample_schedule = Some st /\
     RunWithTimedProgress.main st = RunWithTimedProgress.Returned /\
     RunWithTimedProgress.reported st =
       RunWithTimedProgress.zero
         :: map (elapsed_fraction 16 0) [1; 8; 16]
         ++ [RunWithTimedProgress.one] /\
     last (RunWithTimedProgress.reported st) RunWithTimedProgress.zero
       = RunWithTimedProgress.one /\
     StronglySorted Number_le
       (RunWithTimedProgress.zero
          :: map (elapsed_fraction 16 0) [1; 8; 16])) /\
  (exists st,
     RunWithTimedProgress.run 16 (RunWithTimedProgress.start 16 0 1)
       sample_rejected_schedule = Some st /\
     RunWithTimedProgress.main st
       = RunWithTimedProgress.Threw sample_read_error /\
     final_report (RunWithTimedProgress.main st) = []).
Proof.
  split.
  - eexists. split; [reflexivity |].
    destruct (runWithTimedProgress_reports 16 0 1 sample_schedule _ eq_refl)
      as (Hrep & _ & _ & Hlast & _ & Hsorted).
    split; [reflexivity |]. split; [exact Hrep |].
    split; [exact (Hlast eq_refl) |].
    apply Hsorted; [lia |].
    repeat constructor; lia.
  - eexists. split; [reflexivity |].
    destruct (runWithTimedProgress_reports 16 0 1 sample_rejected_schedule
                _ eq_refl) as (_ & _ & _ & _ & Hrejected & _).
    exact (Hrejected sample_read_error eq_refl).
Defined.

(** C7, as stated, fails when the operation is rejected: the function
    throws, and after both the operation and the loop have finished the
    last report is [17/16], the closing [1.0] never being issued. *)
Lemma rejected_work_never_reports_one :
  exists st,
    RunWithTimedProgress.run 16 (RunWithTimedProgress.start 16 0 1)
      sample_rejected_schedule = Some st /\
    RunWithTimedProgress.looping st = false /\
    RunWithTimedProgress.work st = Some (Rejected sample_read_error) /\
    RunWithTimedProgress.main st
      = RunWithTimedProgress.Threw sample_read_error /\
    RunWithTimedProgress.reported st =
      [RunWithTimedProgress.zero; elapsed_fraction 16 0 1;
       elapsed_fraction 16 0 17] /\
    last (RunWithTimedProgress.reported st) RunWithTimedProgress.zero
      <> RunWithTimedProgress.one /\
    ~ In RunWithTimedProgress.one (RunWithTimedProgress.reported st).
Proof.
  eexists. split; [reflexivity |].
  split; [reflexivity |]. split; [reflexivity |]. split; [reflexivity |].
  split; [reflexivity |]. split.
  - vm_compute. discriminate.
  - vm_compute. intros [H | [H | [H | []]]]; discriminate.
Qed.

(** ** Further facts *)

(** A container too short for the fixed header makes the parser fail with
    the [RangeError] of the [DataView]. *)
Lemma getEntryMetadata_truncated (blob : Blob) (entry : Entry) :
  0 <= entry_offset entry ->
  Blob_size blob < entry_offset entry + 30 ->
  outcome (getEntryMetadata blob entry) = Rejected RangeError.
Proof.
  intros Ho Hshort.
  destruct (outcome (getEntryMetadata blob entry)) as [md | e] eqn:Hout.
  - apply getEntryMetadata_fulfilled_inv in Hout; [lia | exact Ho].
  - revert Hout.
    unfold getEntryMetadata, slice_arrayBuffer, getUint16, getUint32.
    cbn [bind lift]. set (h := Blob_slice blob _ _).
    assert (Hget : forall w p v,
               DataView_getUint w h p = Rejected v -> v = RangeError).
    { intros w p v. unfold DataView_getUint.
      destruct (_ && _); [discriminate | congruence]. }
    destruct (DataView_getUint 2 h 8) eqn:E1; cbn [app outcome snd];
      [| intros [= <-]; f_equal; eapply Hget; eassumption].
    destruct (DataView_getUint 4 h 18) eqn:E2; cbn [app outcome snd];
      [| intros [= <-]; f_equal; eapply Hget; eassumption].
    destruct (DataView_getUint 4 h 22) eqn:E3; cbn [app outcome snd];
      [| intros [= <-]; f_equal; eapply Hget; eassumption].
    destruct (DataView_getUint 2 h 26) eqn:E4; cbn [app outcome snd];
      [| intros [= <-]; f_equal; eapply Hget; eassumption].
    destruct (DataView_getUint 2 h 28) eqn:E5; cbn [app outcome snd];
      [| intros [= <-]; f_equal; eapply Hget; eassumption].
    discriminate.
Qed.

(** The last byte of a stored entry is read with [read(S - 1, 1)]. *)
Lemma read_last_byte (blob : Blob) (md : EntryMetadata) :
  let S := compressedSize md in
  0 < S -> 0 <= dataStart md -> dataStart md + S <= Blob_size blob ->
  outcome (readUint8Array (BlobEntryReaderImpl blob md) (S - 1) 1)
  = Fulfilled [nth (Z.to_nat (dataStart md + S - 1)) blob x00].
Proof.
  intros S HS HD Hin. rewrite BlobEntryReaderImpl_read. fold S.
  cbn [outcome snd]. f_equal.
  replace (S - 1 + 1) with S by lia.
  rewrite !parseIndex_nonnegative by lia.
  rewrite Z.min_l, Z.min_id by lia.
  rewrite Blob_slice_bytes_in_range by lia.
  unfold bytes_in_range, Blob_size in *.
  replace (S + dataStart md - (S - 1 + dataStart md)) with 1 by lia.
  replace (S - 1 + dataStart md) with (dataStart md + S - 1) by lia.
  change (Z.to_nat 1) with 1%nat.
  remember (Z.to_nat (dataStart md + S - 1)) as n eqn:Hn.
  assert (Hlt : (n < List.length blob)%nat) by lia.
  clear - Hlt. revert n Hlt.
  induction blob as [| b rest IH]; intros n Hlt; [cbn in Hlt; lia |].
  destruct n as [| n]; [reflexivity |].
  cbn [skipn nth]. apply IH. cbn in Hlt. lia.
Qed.

(** An entry without [getData]: the [TypeError] of the call is caught and
    rethrown as it is, and the library is not called. *)
Lemma zipGetData_without_getData (entry : Entry) (writer : BlobWriter)
    (options : option EntryGetDataOptions) :
  getData entry = None ->
  zipGetData entry writer options = ([], Rejected TypeError).
Proof.
  intros Hnone. unfold zipGetData, call_getData. rewrite Hnone. reflexivity.
Qed.

(** * Further properties of the code *)

(** ** The stored-entry reader as a slice of the entry's data *)

Lemma parseIndex_relative_bound (index size : Z) :
  parseIndex index size = relative_bound size index.
Proof.
  unfold parseIndex, relative_bound. rewrite (Z.add_comm index size).
  reflexivity.
Qed.

Lemma firstn_firstn_skipn {A} (n m : nat) (l : list A) :
  firstn n l ++ firstn m (skipn n l) = firstn (n + m) l.
Proof.
  revert l. induction n as [| n IH]; intros l; [reflexivity |].
  destruct l as [| a l]; [now rewrite !firstn_nil |].
  cbn [firstn skipn Nat.add app]. now rewrite IH.
Qed.

Lemma skipn_skipn_add {A} (n m : nat) (l : list A) :
  skipn m (skipn n l) = skipn (n + m) l.
Proof.
  revert l. induction n as [| n IH]; intros l; [reflexivity |].
  destruct l as [| a l]; [now rewrite !skipn_nil |].
  cbn [skipn Nat.add]. apply IH.
Qed.

(** Two adjacent runs of a blob make one run. *)
Lemma bytes_in_range_app (b : Blob) (x y z : Z) :
  0 <= x -> x <= y -> y <= z ->
  bytes_in_range b x y ++ bytes_in_range b y z = bytes_in_range b x z.
Proof.
  intros Hx Hxy Hyz. unfold bytes_in_range.
  replace (Z.to_nat y) with (Z.to_nat x + Z.to_nat (y - x))%nat by lia.
  rewrite <- skipn_skipn_add, firstn_firstn_skipn.
  f_equal. lia.
Qed.

Lemma length_bytes_in_range (b : Blob) (lo hi : Z) :
  0 <= lo ->
  Z.of_nat (List.length (bytes_in_range b lo hi))
  = Z.max 0 (Z.min (hi - lo) (Blob_size b - lo)).
Proof.
  intros Hlo. unfold bytes_in_range, Blob_size.
  rewrite length_firstn, length_skipn. lia.
Qed.

(** A run of a run is a run of the blob. *)
Lemma bytes_in_range_nested (b : Blob) (lo hi x y : Z) :
  0 <= lo -> 0 <= x -> y <= hi - lo ->
  bytes_in_range (bytes_in_range b lo hi) x y
  = bytes_in_range b (lo + x) (lo + y).
Proof.
  intros Hlo Hx Hy. unfold bytes_in_range.
  rewrite skipn_firstn_comm, firstn_firstn, skipn_skipn_add.
  f_equal; [lia |]. f_equal. lia.
Qed.

Lemma Blob_size_entry_data (blob : Blob) (md : EntryMetadata) :
  0 <= compressedSize md -> 0 <= dataStart md ->
  dataStart md + compressedSize md <= Blob_size blob ->
  Blob_size (entry_data blob md) = compressedSize md.
Proof.
  intros HS HD Hin. unfold entry_data, Blob_size at 1.
  rewrite length_bytes_in_range by assumption. lia.
Qed.

(** The outcome of a read of the stored-entry reader, as a run of the
    container. *)
Lemma BlobEntryReaderImpl_outcome (blob : Blob) (md : EntryMetadata)
    (index length : Z) :
  0 <= compressedSize md -> 0 <= dataStart md ->
  outcome (readUint8Array (BlobEntryReaderImpl blob md) index length) =
  Fulfilled
    (bytes_in_range blob
       (dataStart md + parseIndex index (compressedSize md))
       (dataStart md + parseIndex (index + length) (compressedSize md))).
Proof.
  intros HS HD. rewrite BlobEntryReaderImpl_read.
  unfold outcome. cbv beta iota delta [snd].
  pose proof (parseIndex_bounds index _ HS).
  pose proof (parseIndex_bounds (index + length) _ HS).
  rewrite Blob_slice_bytes_in_range by lia.
  do 2 f_equal; lia.
Qed.

(** X1: when the container holds the whole data window of a stored entry,
    [read(index, length)] is [data.slice(index, index + length)] on the
    entry's data taken as a blob of its own: the reader over the container
    and a slice of the extracted data cannot be told apart. *)
Theorem stored_read_is_slice_of_entry_data (blob : Blob)
    (md : EntryMetadata) (index length : Z) :
  0 <= compressedSize md -> 0 <= dataStart md ->
  dataStart md + compressedSize md <= Blob_size blob ->
  outcome (readUint8Array (BlobEntryReaderImpl blob md) index length)
  = Fulfilled (Blob_slice (entry_data blob md) index (index + length)).
Proof.
  intros HS HD Hin.
  rewrite BlobEntryReaderImpl_outcome by assumption. f_equal.
  unfold Blob_slice. rewrite Blob_size_entry_data by assumption.
  rewrite <- !parseIndex_relative_bound.
  pose proof (parseIndex_bounds index _ HS) as Hs.
  pose proof (parseIndex_bounds (index + length) _ HS) as He.
  set (s := parseIndex index (compressedSize md)) in *.
  set (e := parseIndex (index + length) (compressedSize md)) in *.
  destruct (Z_le_gt_dec s e) as [Hle | Hgt].
  - replace (firstn (Z.to_nat (Z.max (e - s) 0))
               (skipn (Z.to_nat s) (entry_data blob md)))
      with (bytes_in_range (entry_data blob md) s e)
      by (unfold bytes_in_range; do 2 f_equal; lia).
    unfold entry_data. rewrite bytes_in_range_nested by lia. reflexivity.
  - replace (Z.max (e - s) 0) with 0 by lia.
    unfold bytes_in_range.
    replace (Z.to_nat (dataStart md + e - (dataStart md + s))) with 0%nat
      by lia.
    reflexivity.
Qed.

Lemma stored_read_is_slice_of_entry_data_witness :
  outcome (readUint8Array
             (BlobEntryReaderImpl sample_container sample_metadata) (-2) 1)
  = Fulfilled (Blob_slice [x61; x62; x63] (-2) (-2 + 1)).
Proof.
  apply (stored_read_is_slice_of_entry_data sample_container sample_metadata
           (-2) 1); vm_compute; congruence.
Defined.

(** X2: adjacent reads concatenate. For [a, b >= 0], when the three bounds
    [index], [index + a] and [index + a + b] are all non-negative or all
    negative, [read(index, a)] followed by [read(index + a, b)] is
    [read(index, a + b)]. *)
Theorem adjacent_reads_concatenate (blob : Blob) (md : EntryMetadata)
    (index a b : Z) :
  let r := BlobEntryReaderImpl blob md in
  0 <= compressedSize md -> 0 <= dataStart md ->
  0 <= a -> 0 <= b -> 0 <= index \/ index + a + b < 0 ->
  exists first second,
    outcome (readUint8Array r index a) = Fulfilled first /\
    outcome (readUint8Array r (index + a) b) = Fulfilled second /\
    outcome (readUint8Array r index (a + b)) = Fulfilled (first ++ second).
Proof.
  intros r HS HD Ha Hb Hsign. subst r.
  rewrite !BlobEntryReaderImpl_outcome by assumption.
  do 2 eexists. split; [reflexivity |]. split; [reflexivity |].
  f_equal. rewrite Z.add_assoc. symmetry.
  apply bytes_in_range_app.
  - pose proof (parseIndex_bounds index _ HS). lia.
  - unfold parseIndex.
    destruct (Z.ltb_spec index 0), (Z.ltb_spec (index + a) 0); lia.
  - unfold parseIndex.
    destruct (Z.ltb_spec (index + a) 0), (Z.ltb_spec (index + a + b) 0); lia.
Qed.

Lemma adjacent_reads_concatenate_witness :
  exists first second,
    outcome (readUint8Array
               (BlobEntryReaderImpl sample_container sample_metadata) 0 1)
      = Fulfilled first /\
    outcome (readUint8Array
               (BlobEntryReaderImpl sample_container sample_metadata)
               (0 + 1) 5)
      = Fulfilled second /\
    outcome (readUint8Array
               (BlobEntryReaderImpl sample_container sample_metadata)
               0 (1 + 5))
      = Fulfilled (first ++ second).
Proof.
  apply (adjacent_reads_concatenate sample_container sample_metadata 0 1 5);
    try (vm_compute; congruence).
  left. lia.
Defined.

(** X3: a read never returns more than the entry holds, and for a
    non-negative [length] never more than [length] bytes; when the
    container holds the whole data window it returns exactly the distance
    between the two clamped bounds. *)
Theorem read_length_bounds (blob : Blob) (md : EntryMetadata)
    (index length : Z) :
  let S := compressedSize md in
  0 <= S -> 0 <= dataStart md ->
  exists bytes,
    outcome (readUint8Array (BlobEntryReaderImpl blob md) index length)
      = Fulfilled bytes /\
    Z.of_nat (List.length bytes) <= S /\
    (0 <= length -> Z.of_nat (List.length bytes) <= length) /\
    (dataStart md + S <= Blob_size blob ->
     Z.of_nat (List.length bytes)
     = Z.max 0 (parseIndex (index + length) S - parseIndex index S)).
Proof.
  intros S HS HD.
  rewrite BlobEntryReaderImpl_outcome by assumption. fold S.
  eexists. split; [reflexivity |].
  pose proof (parseIndex_bounds index S HS) as Hs.
  pose proof (parseIndex_bounds (index + length) S HS) as He.
  rewrite length_bytes_in_range by lia.
  split; [lia |]. split; [| lia].
  intros Hlen. unfold parseIndex in *.
  destruct (Z.ltb_spec index 0), (Z.ltb_spec (index + length) 0); lia.
Qed.

Lemma read_length_bounds_witness :
  exists bytes,
    outcome (readUint8Array
               (BlobEntryReaderImpl sample_container sample_metadata) (-2) 9)
      = Fulfilled bytes /\
    Z.of_nat (List.length bytes) <= 3 /\
    Z.of_nat (List.length bytes) <= 9 /\
    Z.of_nat (List.length bytes) = 2.
Proof.
  assert (HS : 0 <= compressedSize sample_metadata) by (simpl; lia).
  assert (HD : 0 <= dataStart sample_metadata)
    by (unfold dataStart; simpl; lia).
  destruct (read_length_bounds sample_container sample_metadata (-2) 9 HS HD)
    as (bytes & Hread & Hsize & Hlen & Hexact).
  exists bytes. split; [exact Hread |]. split; [exact Hsize |].
  split; [apply Hlen; lia |].
  apply Hexact. vm_compute. congruence.
Defined.

(** X4: a negative index counts from the end of the entry, for ranges that
    stop before the end: with [-S <= index], [0 <= length] and
    [index + length < 0], [read(index, length)] is the same request as
    [read(index + S, length)]. A range that reaches the end does not:
    [read(-k, k)] is empty for every [k > 0]. *)
Theorem negative_index_counts_from_end (blob : Blob) (md : EntryMetadata)
    (index length k : Z) :
  let S := compressedSize md in
  let r := BlobEntryReaderImpl blob md in
  0 <= S -> 0 <= dataStart md ->
  (- S <= index -> 0 <= length -> index + length < 0 ->
   readUint8Array r index length = readUint8Array r (index + S) length) /\
  (0 < k -> outcome (readUint8Array r (- k) k) = Fulfilled []).
Proof.
  intros S r HS HD. subst r. split.
  - intros Hlo Hlen Hend. rewrite !BlobEntryReaderImpl_read. fold S.
    rewrite (parseIndex_negative index) by lia.
    rewrite (parseIndex_negative (index + length)) by lia.
    rewrite (parseIndex_nonnegative (index + S)) by lia.
    rewrite (parseIndex_nonnegative (index + S + length)) by lia.
    replace (Z.max (index + S) 0) with (Z.min (index + S) S) by lia.
    replace (Z.max (index + length + S) 0)
      with (Z.min (index + S + length) S) by lia.
    reflexivity.
  - intros Hk. apply BlobEntryReaderImpl_read_empty; try assumption.
    fold S. replace (- k + k) with 0 by lia.
    pose proof (parseIndex_bounds (- k) S HS).
    rewrite (parseIndex_nonnegative 0) by lia. lia.
Qed.

Lemma negative_index_counts_from_end_witness :
  readUint8Array (BlobEntryReaderImpl sample_container sample_metadata)
    (-3) 2
  = readUint8Array (BlobEntryReaderImpl sample_container sample_metadata)
      (-3 + 3) 2 /\
  outcome (readUint8Array
             (BlobEntryReaderImpl sample_container sample_metadata) (- 2) 2)
  = Fulfilled [].
Proof.
  assert (HS : 0 <= compressedSize sample_metadata) by (simpl; lia).
  assert (HD : 0 <= dataStart sample_metadata)
    by (unfold dataStart; simpl; lia).
  destruct (negative_index_counts_from_end sample_container sample_metadata
              (-3) 2 2 HS HD) as [Hneg Hend].
  split; [apply Hneg; simpl; lia | apply Hend; lia].
Defined.

(** X5: a read from the start that asks for the size of the entry or more
    returns the whole data of the entry, and nothing of what follows it in
    the container. *)
Theorem oversized_read_returns_entry_data (blob : Blob) (md : EntryMetadata)
    (n : Z) :
  0 <= compressedSize md -> 0 <= dataStart md -> compressedSize md <= n ->
  outcome (readUint8Array (BlobEntryReaderImpl blob md) 0 n)
  = Fulfilled (entry_data blob md).
Proof.
  intros HS HD Hn. rewrite BlobEntryReaderImpl_outcome by assumption.
  rewrite (parseIndex_nonnegative 0), Z.add_0_l by lia.
  rewrite (parseIndex_nonnegative n) by lia.
  rewrite (Z.min_l 0), (Z.min_r n) by lia.
  unfold entry_data. now rewrite Z.add_0_r.
Qed.

Lemma oversized_read_returns_entry_data_witness :
  outcome (readUint8Array
             (BlobEntryReaderImpl sample_container sample_metadata) 0 1000)
  = Fulfilled [x61; x62; x63].
Proof.
  apply (oversized_read_returns_entry_data sample_container sample_metadata
           1000); vm_compute; congruence.
Defined.

(** ** The header parser *)

Lemma DataView_getUint_range (width : nat) (buffer : ArrayBuffer)
    (byteOffset v : Z) :
  DataView_getUint width buffer byteOffset = Fulfilled v ->
  0 <= v < 256 ^ Z.of_nat width.
Proof.
  unfold DataView_getUint. destruct (_ && _); [| discriminate].
  intros Hv. apply Fulfilled_inj in Hv. subst v.
  pose proof (le_value_bound
                (firstn width (skipn (Z.to_nat byteOffset) buffer))) as Hb.
  split; [lia |].
  eapply Z.lt_le_trans; [apply Hb |].
  apply Z.pow_le_mono_r; [lia |].
  rewrite length_firstn. lia.
Qed.

(** The outcome of the parser read off the five reads of the [DataView]. *)
Lemma getEntryMetadata_outcome_inv (blob : Blob) (entry : Entry)
    (md : EntryMetadata) :
  outcome (getEntryMetadata blob entry) = Fulfilled md ->
  let h := Blob_slice blob (entry_offset entry) (entry_offset entry + 30) in
  exists fileNameLength extraFieldLength,
    md_offset md = entry_offset entry /\
    getUint16 h 8 = Fulfilled (compressionMethod md) /\
    getUint32 h 18 = Fulfilled (compressedSize md) /\
    getUint32 h 22 = Fulfilled (uncompressedSize md) /\
    getUint16 h 26 = Fulfilled fileNameLength /\
    getUint16 h 28 = Fulfilled extraFieldLength /\
    headerSize md = 30 + fileNameLength + extraFieldLength.
Proof.
  intros Hout h.
  unfold getEntryMetadata, slice_arrayBuffer, ZIP_ENTRY_HEADER_BEGIN_LENGTH
    in Hout.
  cbn [bind lift] in Hout. fold h in Hout. revert Hout.
  destruct (getUint16 h 8) as [v1 | e]; cbn [app]; [| discriminate].
  destruct (getUint32 h 18) as [v2 | e]; cbn [app]; [| discriminate].
  destruct (getUint32 h 22) as [v3 | e]; cbn [app]; [| discriminate].
  destruct (getUint16 h 26) as [v4 | e]; cbn [app]; [| discriminate].
  destruct (getUint16 h 28) as [v5 | e]; cbn [app]; [| discriminate].
  unfold ret, outcome. cbv beta iota delta [snd].
  intros Hmd. apply Fulfilled_inj in Hmd. subst md.
  exists v4, v5. repeat split.
Qed.

(** X6: whatever the container holds, the metadata the parser returns keep
    the entry's offset, a 16-bit compression method, 32-bit sizes, and a
    header size between 30 and 30 + 2 * 65535. *)
Theorem metadata_field_ranges (blob : Blob) (entry : Entry)
    (md : EntryMetadata) :
  outcome (getEntryMetadata blob entry) = Fulfilled md ->
  md_offset md = entry_offset entry /\
  0 <= compressionMethod md < 2 ^ 16 /\
  0 <= compressedSize md < 2 ^ 32 /\
  0 <= uncompressedSize md < 2 ^ 32 /\
  30 <= headerSize md <= 30 + 2 * (2 ^ 16 - 1).
Proof.
  intros Hout.
  destruct (getEntryMetadata_outcome_inv blob entry md Hout)
    as (fnl & efl & Hoff & Hm & Hc & Hu & Hf & He & Hh).
  apply DataView_getUint_range in Hm, Hc, Hu, Hf, He.
  change (256 ^ Z.of_nat 2) with (2 ^ 16) in *.
  change (256 ^ Z.of_nat 4) with (2 ^ 32) in *.
  repeat split; try assumption; try lia.
Qed.

Lemma metadata_field_ranges_witness :
  md_offset sample_deflated_metadata = entry_offset sample_entry /\
  0 <= compressionMethod sample_deflated_metadata < 2 ^ 16 /\
  0 <= compressedSize sample_deflated_metadata < 2 ^ 32 /\
  0 <= uncompressedSize sample_deflated_metadata < 2 ^ 32 /\
  30 <= headerSize sample_deflated_metadata <= 30 + 2 * (2 ^ 16 - 1).
Proof.
  apply (metadata_field_ranges sample_deflated sample_entry
           sample_deflated_metadata).
  reflexivity.
Defined.

(** X7: for a header offset [o >= 0] the parser succeeds exactly when the
    container holds the 30 bytes at [o, o + 30); on a shorter container it
    asks for that range all the same and is rejected with the [RangeError]
    of the [DataView]. *)
Theorem getEntryMetadata_succeeds_iff_header_present (blob : Blob)
    (entry : Entry) :
  let o := entry_offset entry in
  0 <= o ->
  ((exists md, outcome (getEntryMetadata blob entry) = Fulfilled md) <->
   o + 30 <= Blob_size blob) /\
  (Blob_size blob < o + 30 ->
   getEntryMetadata blob entry =
   ([CallSlice blob o (o + 30)], Rejected RangeError)).
Proof.
  intros o Ho. split; [split |].
  - intros [md Hmd].
    exact (getEntryMetadata_fulfilled_inv blob entry md Ho Hmd).
  - intros Hlen. rewrite (getEntryMetadata_spec blob entry Ho Hlen).
    eexists. reflexivity.
  - intros Hshort. subst o.
    rewrite <- (getEntryMetadata_truncated blob entry Ho Hshort).
    rewrite <- getEntryMetadata_trace.
    unfold trace, outcome. apply surjective_pairing.
Qed.

Lemma getEntryMetadata_succeeds_iff_header_present_witness :
  ((exists md,
      outcome (getEntryMetadata sample_truncated sample_entry) = Fulfilled md)
   <-> 0 + 30 <= Blob_size sample_truncated) /\
  getEntryMetadata sample_truncated sample_entry =
  ([CallSlice sample_truncated 0 30], Rejected RangeError).
Proof.
  assert (Ho : 0 <= entry_offset sample_entry) by (simpl; lia).
  destruct (getEntryMetadata_succeeds_iff_header_present sample_truncated
              sample_entry Ho) as [Hiff Hshort].
  split; [exact Hiff |]. apply Hshort. vm_compute. reflexivity.
Defined.

(** X8: the parser looks at nothing but the 30 bytes it slices. Two
    containers that hold the same bytes in the header range, each at its
    own offset, give the same fields, or fail with the same error. *)
Theorem getEntryMetadata_depends_on_header_only (blob1 blob2 : Blob)
    (entry1 entry2 : Entry) :
  Blob_slice blob1 (entry_offset entry1) (entry_offset entry1 + 30)
  = Blob_slice blob2 (entry_offset entry2) (entry_offset entry2 + 30) ->
  match outcome (getEntryMetadata blob1 entry1),
        outcome (getEntryMetadata blob2 entry2) with
  | Fulfilled md1, Fulfilled md2 =>
      compressionMethod md1 = compressionMethod md2 /\
      compressedSize md1 = compressedSize md2 /\
      uncompressedSize md1 = uncompressedSize md2 /\
      headerSize md1 = headerSize md2
  | Rejected e1, Rejected e2 => e1 = e2
  | _, _ => False
  end.
Proof.
  intros Hsame.
  unfold getEntryMetadata, slice_arrayBuffer, ZIP_ENTRY_HEADER_BEGIN_LENGTH.
  cbn [bind lift]. rewrite Hsame.
  set (h := Blob_slice blob2 _ _).
  destruct (getUint16 h 8); cbn [app outcome snd]; [| reflexivity].
  destruct (getUint32 h 18); cbn [app outcome snd]; [| reflexivity].
  destruct (getUint32 h 22); cbn [app outcome snd]; [| reflexivity].
  destruct (getUint16 h 26); cbn [app outcome snd]; [| reflexivity].
  destruct (getUint16 h 28); cbn [app outcome snd]; [| reflexivity].
  repeat split.
Qed.

Lemma getEntryMetadata_depends_on_header_only_witness :
  match outcome (getEntryMetadata sample_embedded
                   {| entry_offset := 4; getData := None |}),
        outcome (getEntryMetadata sample_container sample_entry) with
  | Fulfilled md1, Fulfilled md2 =>
      compressionMethod md1 = compressionMethod md2 /\
      compressedSize md1 = compressedSize md2 /\
      uncompressedSize md1 = uncompressedSize md2 /\
      headerSize md1 = headerSize md2
  | Rejected e1, Rejected e2 => e1 = e2
  | _, _ => False
  end.
Proof.
  apply (getEntryMetadata_depends_on_header_only sample_embedded
           sample_container {| entry_offset := 4; getData := None |}
           sample_entry).
  reflexivity.
Defined.

(** ** zipGetData and the initialisation of the accessor *)

(** X9: [zipGetData] is fulfilled exactly when the entry has a [getData]
    and the decode is fulfilled, with the same blob; a rejected decode is
    never swallowed; the library is called at most once; an entry without
    [getData] is rejected with the [TypeError] of the call, the library not
    being called. *)
Theorem zipGetData_fulfils_iff_decode_fulfils (entry : Entry)
    (writer : BlobWriter) (options : option EntryGetDataOptions)
    (blob : Blob) :
  (outcome (zipGetData entry writer options) = Fulfilled blob <->
   exists decode,
     getData entry = Some decode /\
     decode writer options = Fulfilled blob) /\
  (forall decode e,
     getData entry = Some decode -> decode writer options = Rejected e ->
     exists e', outcome (zipGetData entry writer options) = Rejected e') /\
  (List.length (trace (zipGetData entry writer options)) <= 1)%nat /\
  (getData entry = None ->
   zipGetData entry writer options = ([], Rejected TypeError)).
Proof.
  unfold zipGetData, call_getData.
  destruct (getData entry) as [decode |].
  - destruct (decode writer options) as [b | e] eqn:Hdec.
    + cbn. split; [split |].
      * intros [= <-]. exists decode. split; [reflexivity | exact Hdec].
      * intros (d & [= <-] & Hd). congruence.
      * split; [| split; [lia | discriminate]].
        intros d e [= <-] Hd. congruence.
    + assert (Hrej : exists e',
                 try_catch
                   ([CallGetData (writer_mime writer) options],
                    @Rejected Blob e)
                   (fun e0 =>
                      match e0 with
                      | JsProgressEvent type (Some target) =>
                          if String.eqb type "error"
                          then throw (get_prop target "error")
                          else throw e0
                      | _ => throw e0
                      end)
                 = ([CallGetData (writer_mime writer) options], Rejected e')).
      { destruct e as [| n m | n m t | type [target |] | props];
          try (eexists; reflexivity).
        cbn. destruct (String.eqb type "error"); eexists; reflexivity. }
      destruct Hrej as [e' ->]. cbn. split; [split |].
      * discriminate.
      * intros (d & [= <-] & Hd). congruence.
      * split; [| split; [lia | discriminate]].
        intros d e0 _ _. exists e'. reflexivity.
  - cbn. split; [split |].
    + discriminate.
    + intros (d & Hd & _). discriminate.
    + split; [| split; [lia | reflexivity]].
      intros d e Hd. discriminate.
Qed.

Lemma zipGetData_fulfils_iff_decode_fulfils_witness :
  outcome (zipGetData sample_entry (mkBlobWriter None) None)
    = Fulfilled [x61; x62; x63] /\
  (exists e',
     outcome (zipGetData sample_failing_entry (mkBlobWriter None) None)
     = Rejected e') /\
  zipGetData sample_directory_entry (mkBlobWriter None) None
    = ([], Rejected TypeError).
Proof.
  split; [| split].
  - destruct (zipGetData_fulfils_iff_decode_fulfils sample_entry
                (mkBlobWriter None) None [x61; x62; x63]) as ([_ Hiff] & _).
    apply Hiff. exists sample_decode. split; reflexivity.
  - destruct (zipGetData_fulfils_iff_decode_fulfils sample_failing_entry
                (mkBlobWriter None) None []) as (_ & Hrej & _).
    exact (Hrej sample_failing_decode _ eq_refl eq_refl).
  - destruct (zipGetData_fulfils_iff_decode_fulfils sample_directory_entry
                (mkBlobWriter None) None []) as (_ & _ & _ & Hnone).
    exact (Hnone eq_refl).
Defined.

Section EntryAccessorFailures.

Variable BlobReader : Blob -> Reader.
Variable Reader_size : Z.

(** X10: on a container too short for the fixed header at [o >= 0], [init]
    is rejected with the [RangeError] after the one slice request; the
    entry is not decoded, whatever its [getData] would do. *)
Theorem init_rejects_truncated_header (blob : Blob) (entry : Entry)
    (mime : option string) (options : option EntryGetDataOptions) :
  let o := entry_offset entry in
  0 <= o -> Blob_size blob < o + 30 ->
  BlobEntryReader_init BlobReader
    (new_BlobEntryReader Reader_size blob entry mime options)
  = ([CallSlice blob o (o + 30)], Rejected RangeError).
Proof.
  intros o Ho Hshort. subst o.
  pose proof (getEntryMetadata_truncated blob entry Ho Hshort) as Hout.
  pose proof (getEntryMetadata_trace blob entry) as Htr.
  unfold BlobEntryReader_init. cbn [this_blob this_entry new_BlobEntryReader].
  destruct (getEntryMetadata blob entry) as [t out].
  unfold trace, outcome in *. cbn [fst snd] in *. subst t out. reflexivity.
Qed.

(** X11: when the entry is compressed and the decode fails, [init] is
    rejected with what [zipGetData] throws (the unwrapped error), after the
    header slice and the requests of [zipGetData]. *)
Theorem init_passes_on_decode_failure (blob : Blob) (entry : Entry)
    (mime : option string) (options : option EntryGetDataOptions)
    (md : EntryMetadata) (e : JsValue) :
  outcome (getEntryMetadata blob entry) = Fulfilled md ->
  compressionMethod md <> 0 ->
  outcome (zipGetData entry (mkBlobWriter mime) options) = Rejected e ->
  BlobEntryReader_init BlobReader
    (new_BlobEntryReader Reader_size blob entry mime options)
  = (CallSlice blob (entry_offset entry) (entry_offset entry + 30)
       :: trace (zipGetData entry (mkBlobWriter mime) options),
     Rejected e).
Proof.
  intros Hmd Hm Hzip. apply getEntryMetadata_fulfilled in Hmd.
  unfold BlobEntryReader_init.
  cbn [this_blob this_entry this_mimeString this_options
       new_BlobEntryReader].
  rewrite Hmd. cbn [bind].
  destruct (Z.eqb_spec (compressionMethod md) 0) as [E | _];
    [contradiction |].
  cbn [negb].
  destruct (zipGetData entry (mkBlobWriter mime) options) as [t out].
  unfold outcome, trace in *. cbn [fst snd] in *. subst out.
  cbn. reflexivity.
Qed.

(** [init] reads only the four fields the constructor set. *)
Lemma init_congruence (this1 this2 : BlobEntryReader) :
  this_blob this1 = this_blob this2 ->
  this_entry this1 = this_entry this2 ->
  this_mimeString this1 = this_mimeString this2 ->
  this_options this1 = this_options this2 ->
  BlobEntryReader_init BlobReader this1 = BlobEntryReader_init BlobReader this2.
Proof.
  destruct this1, this2. cbn [this_blob this_entry this_mimeString
                              this_options].
  intros -> -> -> ->.
  unfold BlobEntryReader_init.
  cbn [this_blob this_entry this_mimeString this_options].
  destruct (getEntryMetadata this_blob1 this_entry1) as [t [md | e]];
    cbn [bind]; [| reflexivity].
  destruct (negb (compressionMethod md =? 0)).
  - destruct (zipGetData this_entry1 (mkBlobWriter this_mimeString1)
                this_options1) as [t' [entryBlob | e]]; reflexivity.
  - reflexivity.
Qed.

Lemma init_preserves_fields (this this' : BlobEntryReader) :
  outcome (BlobEntryReader_init BlobReader this) = Fulfilled this' ->
  this_blob this' = this_blob this /\
  this_entry this' = this_entry this /\
  this_mimeString this' = this_mimeString this /\
  this_options this' = this_options this /\
  exists r, this_reader this' = Some r /\ this_size this' = size r.
Proof.
  unfold BlobEntryReader_init.
  destruct (getEntryMetadata (this_blob this) (this_entry this))
    as [t [md | e]]; cbn [bind]; [| discriminate].
  destruct (negb (compressionMethod md =? 0)).
  - destruct (zipGetData (this_entry this)
                (mkBlobWriter (this_mimeString this)) (this_options this))
      as [t' [entryBlob | e]]; cbn; [| discriminate].
    intros Hout. apply Fulfilled_inj in Hout. subst this'.
    repeat split. eexists. split; reflexivity.
  - cbn. intros Hout. apply Fulfilled_inj in Hout. subst this'.
    repeat split. eexists. split; reflexivity.
Qed.

(** X12: [init] keeps the container, the entry, the MIME type and the
    options of the accessor, and sets the reader and the size together;
    calling it again on the initialised accessor makes the same requests
    and yields the same accessor. *)
Theorem init_is_idempotent (this this' : BlobEntryReader) :
  outcome (BlobEntryReader_init BlobReader this) = Fulfilled this' ->
  this_blob this' = this_blob this /\
  this_entry this' = this_entry this /\
  this_mimeString this' = this_mimeString this /\
  this_options this' = this_options this /\
  (exists r, this_reader this' = Some r /\ this_size this' = size r) /\
  BlobEntryReader_init BlobReader this'
  = (trace (BlobEntryReader_init BlobReader this), Fulfilled this').
Proof.
  intros Hout.
  destruct (init_preserves_fields this this' Hout)
    as (Hb & He & Hm & Ho & Hr).
  repeat split; try assumption.
  rewrite (init_congruence this' this Hb He Hm Ho), <- Hout.
  unfold trace, outcome. apply surjective_pairing.
Qed.

(** X13: once [init] has installed the stored-entry reader for an entry
    at offset [o >= 0], every read asks the container for one slice that
    starts and ends after the fixed header, between [o + 30] and the end
    of the data window; the size of the accessor is a 32-bit number. *)
Theorem initialised_stored_reads_skip_header (blob : Blob) (entry : Entry)
    (mime : option string) (options : option EntryGetDataOptions)
    (md : EntryMetadata) (this : BlobEntryReader) (index length : Z) :
  let o := entry_offset entry in
  0 <= o ->
  outcome (getEntryMetadata blob entry) = Fulfilled md ->
  compressionMethod md = 0 ->
  outcome (BlobEntryReader_init BlobReader
             (new_BlobEntryReader Reader_size blob entry mime options))
    = Fulfilled this ->
  0 <= this_size this < 2 ^ 32 /\
  exists start end_,
    trace (BlobEntryReader_readUint8Array this index length)
      = [CallSlice blob start end_] /\
    o + 30 <= start <= o + headerSize md + this_size this /\
    o + 30 <= end_ <= o + headerSize md + this_size this.
Proof.
  intros o Ho Hmd Hm Hinit.
  destruct (getEntryMetadata_fulfilled_bounds blob entry md Ho Hmd)
    as (Hrun & Hoff & HS & HH).
  destruct (getEntryMetadata_outcome_inv blob entry md Hmd)
    as (_ & _ & _ & _ & Hc & _).
  apply DataView_getUint_range in Hc.
  change (256 ^ Z.of_nat 4) with (2 ^ 32) in Hc.
  rewrite (init_stored BlobReader
             (new_BlobEntryReader Reader_size blob entry mime options)
             md _ Hrun Hm) in Hinit.
  apply Fulfilled_inj in Hinit. subst this.
  cbn [this_size set_size]. split; [exact Hc |].
  unfold BlobEntryReader_readUint8Array.
  cbn [this_reader set_size set_reader this_blob new_BlobEntryReader].
  rewrite BlobEntryReaderImpl_read. do 2 eexists. split; [reflexivity |].
  pose proof (parseIndex_bounds index _ HS).
  pose proof (parseIndex_bounds (index + length) _ HS).
  unfold dataStart. rewrite Hoff. fold o. lia.
Qed.

End EntryAccessorFailures.

Lemma init_rejects_truncated_header_witness :
  BlobEntryReader_init sample_BlobReader
    (new_BlobEntryReader 0 sample_truncated sample_entry None None)
  = ([CallSlice sample_truncated 0 30], Rejected RangeError).
Proof.
  apply (init_rejects_truncated_header sample_BlobReader 0 sample_truncated
           sample_entry None None); vm_compute; congruence.
Defined.

Lemma init_passes_on_decode_failure_witness :
  BlobEntryReader_init sample_BlobReader
    (new_BlobEntryReader 0 sample_deflated sample_failing_entry None None)
  = ([CallSlice sample_deflated 0 30; CallGetData None None],
     Rejected sample_read_error).
Proof.
  apply (init_passes_on_decode_failure sample_BlobReader 0 sample_deflated
           sample_failing_entry None None sample_deflated_metadata
           sample_read_error).
  - reflexivity.
  - simpl. lia.
  - reflexivity.
Defined.

Lemma init_is_idempotent_witness :
  exists this',
    outcome (BlobEntryReader_init sample_BlobReader
               (new_BlobEntryReader 0 sample_deflated sample_entry
                  None None))
      = Fulfilled this' /\
    this_blob this' = sample_deflated /\
    BlobEntryReader_init sample_BlobReader this'
    = ([CallSlice sample_deflated 0 30; CallGetData None None],
       Fulfilled this').
Proof.
  eexists. split; [reflexivity |].
  destruct (init_is_idempotent sample_BlobReader
              (new_BlobEntryReader 0 sample_deflated sample_entry None None)
              _ eq_refl) as (Hb & _ & _ & _ & _ & Hagain).
  split; [exact Hb | exact Hagain].
Defined.

Lemma initialised_stored_reads_skip_header_witness :
  exists this,
    outcome (BlobEntryReader_init sample_BlobReader
               (new_BlobEntryReader 0 sample_container sample_entry
                  None None))
      = Fulfilled this /\
    0 <= this_size this < 2 ^ 32 /\
    exists start end_,
      trace (BlobEntryReader_readUint8Array this (-100) 200)
        = [CallSlice sample_container start end_] /\
      0 + 30 <= start <= 0 + 31 + this_size this /\
      0 + 30 <= end_ <= 0 + 31 + this_size this.
Proof.
  eexists. split; [reflexivity |].
  assert (Ho : 0 <= entry_offset sample_entry) by (simpl; lia).
  exact (initialised_stored_reads_skip_header sample_BlobReader 0
           sample_container sample_entry None None sample_metadata _
           (-100) 200 Ho eq_refl eq_refl eq_refl).
Defined.

(** ** runWithTimeout: the returned promise and the timer *)

Section RacedTimeoutMore.

Context {T : Type}.
Variable timeout : Z.

Local Abbreviation State := (@RunWithTimeout.State T).
Local Abbreviation Task := (@RunWithTimeout.Task T).
Local Abbreviation initial := (@RunWithTimeout.initial T).
Local Abbreviation step := (@RunWithTimeout.step T timeout).
Local Abbreviation run := (@RunWithTimeout.run T timeout).

(** No callback changes a promise that is settled: this holds in every
    state, reachable or not. *)
Lemma step_result_stable (st st' : State) (task : Task) (o : Outcome T) :
  step st task = Some st' ->
  RunWithTimeout.result st = Some o -> RunWithTimeout.result st' = Some o.
Proof.
  destruct st as [to h pending res calls].
  cbn [RunWithTimeout.result]. intros Hstep ->.
  destruct task as [| [v | e]]; cbn in Hstep.
  - destruct h; try discriminate. injection Hstep as <-. reflexivity.
  - destruct pending; [| discriminate]. injection Hstep as <-.
    destruct to; reflexivity.
  - destruct pending; [| discriminate]. injection Hstep as <-.
    destruct to; reflexivity.
Qed.

Lemma run_result_stable (tasks : list Task) (st st' : State)
    (o : Outcome T) :
  run st tasks = Some st' ->
  RunWithTimeout.result st = Some o -> RunWithTimeout.result st' = Some o.
Proof.
  revert st. induction tasks as [| task rest IH]; intros st;
    cbn [RunWithTimeout.run].
  - intros [= <-]. trivial.
  - destruct (step st task) as [st1 |] eqn:Hstep; [| discriminate].
    intros Hrun Hres. apply (IH st1 Hrun).
    exact (step_result_stable st st1 task o Hstep Hres).
Qed.

(** X14: after any task at all the returned promise is settled and the
    timer is no longer armed (it has fired or been cleared, never left
    behind); what the promise settled with is the first call of [resolve]
    or [reject] and no later task changes it; [timedOut] is set exactly
    when the timer has fired. *)
Theorem runWithTimeout_settles_and_releases_timer (tasks1 tasks2 : list Task)
    (st1 st2 : State) :
  run initial tasks1 = Some st1 ->
  run st1 tasks2 = Some st2 ->
  (tasks1 = [] \/
   (RunWithTimeout.tid st1 <> RunWithTimeout.Armed /\
    exists o, RunWithTimeout.result st1 = Some o)) /\
  (forall o, RunWithTimeout.result st1 = Some o ->
             RunWithTimeout.result st2 = Some o) /\
  RunWithTimeout.result st1 = hd_error (RunWithTimeout.settle_calls st1) /\
  (RunWithTimeout.timedOut st1 = true <->
   RunWithTimeout.tid st1 = RunWithTimeout.Fired).
Proof.
  intros Hrun1 Hrun2.
  split; [| split; [| split]].
  - destruct (run_cases timeout tasks1 st1 Hrun1)
      as [[-> ->] | [(o & -> & ->) | [[-> ->] | (o & -> & ->)]]];
      [left; reflexivity | right .. ];
      (split; [discriminate | eexists; reflexivity]).
  - intros o. exact (run_result_stable tasks2 st1 st2 o Hrun2).
  - destruct (run_cases timeout tasks1 st1 Hrun1)
      as [[-> ->] | [(o & -> & ->) | [[-> ->] | (o & -> & ->)]]];
      reflexivity.
  - destruct (run_cases timeout tasks1 st1 Hrun1)
      as [[-> ->] | [(o & -> & ->) | [[-> ->] | (o & -> & ->)]]];
      cbn; split; (reflexivity || discriminate).
Qed.

End RacedTimeoutMore.

Lemma runWithTimeout_settles_and_releases_timer_witness :
  (RunWithTimeout.tid (@timer_won Z 5000 true) <> RunWithTimeout.Armed /\
   exists o, RunWithTimeout.result (@timer_won Z 5000 true) = Some o) /\
  RunWithTimeout.result (@timer_won Z 5000 false)
    = Some (Rejected (RunWithTimeout.new_TimeoutError 5000)).
Proof.
  destruct (runWithTimeout_settles_and_releases_timer 5000
              [RunWithTimeout.TimerFires]
              [RunWithTimeout.PromiseSettles (Fulfilled 7)]
              (timer_won 5000 true) (timer_won 5000 false)
              eq_refl eq_refl) as ([Hnil | Hsettled] & Hstable & _).
  - discriminate Hnil.
  - split; [exact Hsettled |]. apply Hstable. reflexivity.
Defined.

(** ** runWithTimedProgress: the loop *)

Section TimedProgressMore.

Context {T : Type}.
Variable duration : Z.

Import RunWithTimedProgress.

Local Abbreviation State := (@RunWithTimedProgress.State T).
Local Abbreviation Task := (@RunWithTimedProgress.Task T).
Local Abbreviation step := (@RunWithTimedProgress.step T duration).
Local Abbreviation run := (@RunWithTimedProgress.run T duration).
Local Abbreviation start := (@RunWithTimedProgress.start T duration).

(** What every task keeps, every schedule keeps, with the ticks of the
    whole schedule. *)
Lemma run_ticks_invariant (P : list Z -> State -> Prop) :
  (forall ticks st st' task,
     P ticks st -> step st task = Some st' ->
     P (ticks ++ consumed task st') st') ->
  forall tasks ticks st st',
    P ticks st -> run st tasks = Some st' ->
    P (ticks ++ if looping st' then frames tasks
                else removelast (frames tasks)) st'.
Proof.
  intros Hstep.
  induction tasks as [| task rest IH]; intros ticks st st' HP;
    cbn [RunWithTimedProgress.run].
  - intros [= <-]. cbn [frames removelast].
    destruct (looping st); now rewrite app_nil_r.
  - destruct (step st task) as [st1 |] eqn:Hst; [| discriminate].
    intros Hrun.
    pose proof (Hstep ticks st st1 task HP Hst) as HP1.
    pose proof (IH _ _ _ HP1 Hrun) as HP'.
    destruct task as [t | o]; cbn [frames consumed] in *.
    + destruct (looping st1) eqn:Hl1.
      * rewrite <- app_assoc in HP'. cbn [app] in HP'.
        destruct (looping st') eqn:Hl'; [exact HP' |].
        destruct (frames rest) as [| t' fs] eqn:Hfr.
        -- pose proof (run_no_frames duration rest st1 st' Hrun Hfr).
           congruence.
        -- exact HP'.
      * destruct (run_not_looping duration rest st1 st' Hl1 Hrun)
          as [Hfr Hl'].
        rewrite Hl', Hfr in HP' |- *. cbn [removelast] in HP' |- *.
        rewrite !app_nil_r in HP'. rewrite app_nil_r. exact HP'.
    + rewrite app_nil_r in HP'. exact HP'.
Qed.

Lemma start_loop_inv (t0 t1 : Z) : loop_inv duration t0 [t1] (start t0 t1).
Proof.
  unfold loop_inv. cbn. repeat split; try discriminate. constructor.
Qed.

Lemma Forall_before_last (P : Z -> Prop) (ticks : list Z) (d : Z) :
  ticks <> [] -> Forall P (removelast ticks) -> P (last ticks d) ->
  Forall P ticks.
Proof.
  intros Hne Hinit Hlast.
  rewrite (app_removelast_last d Hne).
  apply Forall_app. split; [exact Hinit |]. now constructor.
Qed.

(** One task keeps both invariants. *)
Lemma step_loop_inv (t0 : Z) (ticks : list Z) (st st' : State)
    (task : Task) :
  progress_inv duration t0 ticks st /\ loop_inv duration t0 ticks st ->
  step st task = Some st' ->
  progress_inv duration t0 (ticks ++ consumed task st') st' /\
  loop_inv duration t0 (ticks ++ consumed task st') st'.
Proof.
  intros [Hprog Hloop] Hstep.
  split; [exact (step_inv duration t0 ticks st st' task Hprog Hstep) |].
  destruct Hprog as (Hstart & _ & Hmain).
  destruct Hloop as (Hne & Hnow & Hbefore & Hstop).
  destruct st as [t0' stop0 now0 looping0 work0 main0 reported0].
  cbn [startTime reported main looping work RunWithTimedProgress.stop
       RunWithTimedProgress.now] in *.
  subst t0'.
  destruct task as [t | o]; cbn [RunWithTimedProgress.step looping work]
    in Hstep.
  - destruct looping0; [| discriminate].
    injection Hstep as <-.
    destruct (negb stop0 && (now0 <? t0 + duration)) eqn:Hcond.
    + apply andb_prop in Hcond. destruct Hcond as [_ Hlt].
      apply Z.ltb_lt in Hlt.
      unfold loop_inv, consumed; unfold_body.
      split; [now destruct ticks |].
      split; [now rewrite last_last |].
      split; [| exact Hstop].
      rewrite removelast_last.
      apply (Forall_before_last _ ticks t0 Hne Hbefore). now rewrite <- Hnow.
    + assert (Hl : looping (progress_done (end_loop
                {| startTime := t0; stop := stop0; now := now0;
                   looping := true; work := work0; main := main0;
                   reported := reported0 |})) = false)
        by (destruct main0; destruct work0 as [[? | ?] |]; reflexivity).
      unfold loop_inv, consumed. rewrite !Hl, !app_nil_r.
      split; [exact Hne |]. split.
      * destruct main0; destruct work0 as [[? | ?] |]; exact Hnow.
      * split; [exact Hbefore | discriminate].
  - destruct work0 as [w |]; [discriminate |].
    injection Hstep as <-.
    unfold loop_inv, consumed. rewrite !app_nil_r.
    split; [exact Hne |].
    destruct main0; break_inv; destruct o; unfold_body; cbn;
      (split; [reflexivity |]); (split; [assumption |]).
    all: intros Hl; try discriminate Hl;
      split; intros Heq; (reflexivity || discriminate Heq).
Qed.

Lemma run_loop_inv (t0 t1 : Z) (tasks : list Task) (st : State) :
  run (start t0 t1) tasks = Some st ->
  let ticks :=
    t1 :: (if looping st then frames tasks else removelast (frames tasks)) in
  progress_inv duration t0 ticks st /\ loop_inv duration t0 ticks st.
Proof.
  intros Hrun.
  exact (run_ticks_invariant
           (fun ticks st =>
              progress_inv duration t0 ticks st /\
              loop_inv duration t0 ticks st)
           (step_loop_inv t0) tasks [t1] (start t0 t1) st
           (conj (start_inv duration t0 t1) (start_loop_inv t0 t1)) Hrun).
Qed.

(** X15: once the operation is fulfilled while the loop still runs, the
    loop makes no further report of its own: the next animation frame ends
    it, and the function reports [1.0] and returns on that frame. *)
Theorem fulfilled_work_ends_loop_on_next_frame (t0 t1 : Z)
    (tasks : list Task) (st : State) (v : T) (t : Z) :
  run (start t0 t1) tasks = Some st ->
  work st = Some (Fulfilled v) -> looping st = true ->
  exists st',
    step st (Frame t) = Some st' /\
    looping st' = false /\
    main st' = Returned /\
    reported st' = reported st ++ [one].
Proof.
  intros Hrun Hwork Hloop.
  destruct (run_loop_inv t0 t1 tasks st Hrun) as [(_ & _ & Hmain) _].
  destruct st as [t0' stop0 now0 looping0 work0 main0 reported0].
  cbn [main looping work RunWithTimedProgress.stop] in *. subst.
  destruct main0; break_inv.
  eexists. split; [reflexivity |]. repeat split.
Qed.

(** X16: when the operation is rejected while the loop still runs, the
    function has thrown but the loop goes on: as long as the last reading
    is before the target time, each animation frame makes one more report
    [elapsed / duration]; the first frame after a reading at or past the
    target ends the loop without a report. The closing [1.0] never comes. *)
Theorem rejected_work_leaves_loop_running (t0 t1 : Z)
    (tasks : list Task) (st : State) (e : JsValue) (t : Z) :
  run (start t0 t1) tasks = Some st ->
  main st = Threw e -> looping st = true ->
  exists st',
    step st (Frame t) = Some st' /\
    main st' = Threw e /\
    (now st < t0 + duration ->
     looping st' = true /\
     reported st' = reported st ++ [elapsed_fraction duration t0 t]) /\
    (t0 + duration <= now st ->
     looping st' = false /\ reported st' = reported st).
Proof.
  intros Hrun Hmain Hloop.
  destruct (run_loop_inv t0 t1 tasks st Hrun)
    as [(Hstart & _ & _) (_ & _ & _ & Hstop)].
  destruct st as [t0' stop0 now0 looping0 work0 main0 reported0].
  cbn [main looping work RunWithTimedProgress.stop startTime
       RunWithTimedProgress.now] in *.
  subst.
  assert (Hs : stop0 = false).
  { destruct stop0; [| reflexivity].
    destruct (Hstop eq_refl) as [Habs _]. discriminate (Habs eq_refl). }
  subst stop0. cbn [RunWithTimedProgress.step looping negb andb
                    RunWithTimedProgress.stop RunWithTimedProgress.now
                    startTime].
  destruct (Z.ltb_spec now0 (t0 + duration)) as [Hlt | Hge].
  - eexists. split; [reflexivity |]. split; [reflexivity |].
    split; [intros _; split; reflexivity | lia].
  - eexists. split; [reflexivity |]. split; [reflexivity |].
    split; [lia | intros _; split; reflexivity].
Qed.

(** X17: every reading the loop takes, except the last one, is before the
    target time [startTime + duration]; so for a positive duration every
    synthetic fraction but the last is below [1.0], and when the first
    reading is already at or past the target (a zero or negative estimate,
    for instance) the loop makes exactly one report. *)
Theorem loop_overshoots_at_most_once (t0 t1 : Z) (tasks : list Task)
    (st : State) :
  run (start t0 t1) tasks = Some st ->
  let ticks :=
    t1 :: (if looping st then frames tasks else removelast (frames tasks)) in
  now st = last ticks t0 /\
  Forall (fun t => t < t0 + duration) (removelast ticks) /\
  (0 < duration ->
   Forall (fun t => Number_lt (elapsed_fraction duration t0 t) one)
     (removelast ticks)) /\
  (t0 + duration <= t1 -> ticks = [t1]).
Proof.
  intros Hrun ticks.
  destruct (run_loop_inv t0 t1 tasks st Hrun)
    as [_ (_ & Hnow & Hbefore & _)].
  fold ticks in Hnow, Hbefore.
  split; [exact Hnow |]. split; [exact Hbefore |]. split.
  - intros Hd. eapply Forall_impl; [| exact Hbefore].
    intros a Ha. unfold elapsed_fraction, divide, Number_lt, one.
    destruct (Z.eqb_spec duration 0) as [E | _]; [lia |].
    rewrite Qred_correct. unfold Qlt. cbn [Qnum Qden].
    rewrite Z.sgn_pos by assumption.
    cbv beta in Ha. rewrite Z2Pos.id by lia. lia.
  - intros Hlate. subst ticks.
    destruct (if looping st then frames tasks
              else removelast (frames tasks)) as [| f fs]; [reflexivity |].
    change (removelast (t1 :: f :: fs)) with (t1 :: removelast (f :: fs))
      in Hbefore.
    apply Forall_inv in Hbefore. lia.
Qed.

End TimedProgressMore.

Lemma fulfilled_work_ends_loop_on_next_frame_witness :
  exists st st',
    RunWithTimedProgress.run 16 (RunWithTimedProgress.start 16 0 1)
      [RunWithTimedProgress.Frame 8;
       RunWithTimedProgress.WorkSettles (Fulfilled tt)] = Some st /\
    RunWithTimedProgress.step 16 st (RunWithTimedProgress.Frame 9)
      = Some st' /\
    RunWithTimedProgress.main st' = RunWithTimedProgress.Returned /\
    RunWithTimedProgress.reported st'
      = RunWithTimedProgress.reported st ++ [RunWithTimedProgress.one].
Proof.
  eexists.
  destruct (fulfilled_work_ends_loop_on_next_frame 16 0 1
              [RunWithTimedProgress.Frame 8;
               RunWithTimedProgress.WorkSettles (Fulfilled tt)]
              _ tt 9 eq_refl eq_refl eq_refl)
    as (st' & Hstep & _ & Hmain & Hrep).
  exists st'. split; [reflexivity |]. split; [exact Hstep |].
  split; [exact Hmain | exact Hrep].
Defined.

Lemma rejected_work_leaves_loop_running_witness :
  exists st st',
    RunWithTimedProgress.run 16 (RunWithTimedProgress.start 16 0 1)
      [RunWithTimedProgress.WorkSettles (T:=unit)
         (Rejected sample_read_error)] = Some st /\
    RunWithTimedProgress.step 16 st (RunWithTimedProgress.Frame 9)
      = Some st' /\
    RunWithTimedProgress.main st'
      = RunWithTimedProgress.Threw sample_read_error /\
    RunWithTimedProgress.looping st' = true /\
    RunWithTimedProgress.reported st'
      = RunWithTimedProgress.reported st ++ [elapsed_fraction 16 0 9].
Proof.
  eexists.
  destruct (rejected_work_leaves_loop_running 16 0 1
              [RunWithTimedProgress.WorkSettles (T:=unit)
                 (Rejected sample_read_error)]
              _ sample_read_error 9 eq_refl eq_refl eq_refl)
    as (st' & Hstep & Hmain & Hgo & _).
  exists st'. split; [reflexivity |]. split; [exact Hstep |].
  split; [exact Hmain |]. apply Hgo. simpl. lia.
Defined.

Lemma loop_overshoots_at_most_once_witness :
  exists st,
    RunWithTimedProgress.run 16 (RunWithTimedProgress.start 16 0 1)
      sample_schedule = Some st /\
    Forall (fun t => t < 0 + 16) [1; 8] /\
    Forall (fun t => Number_lt (elapsed_fraction 16 0 t)
                       RunWithTimedProgress.one) [1; 8].
Proof.
  eexists. split; [reflexivity |].
  destruct (loop_overshoots_at_most_once 16 0 1 sample_schedule _ eq_refl)
    as (_ & Hbefore & Hbelow & _).
  split; [exact Hbefore |]. apply Hbelow. lia.
Defined.

(** ** Debug logging *)

Section DebugLogging.

Context {Data : Type}.

Local Abbreviation State := (@Logging.State Data).
Local Abbreviation Call := (@Logging.Call Data).

Lemma only_logs_cons (c : Call) (cs : list Call) :
  only_logs (c :: cs) ->
  (forall level, c <> Logging.SetDebugLevel level) /\ only_logs cs.
Proof.
  intros H. split.
  - intros level Heq. apply (H level). left. exact Heq.
  - intros level Hin. apply (H level). right. exact Hin.
Qed.

(** A log call leaves the level as it is and only adds to the console. *)
Lemma call_log_level (st : State) (c : Call) :
  (forall level, c <> Logging.SetDebugLevel level) ->
  Logging.debugLevel (Logging.call st c) = Logging.debugLevel st.
Proof.
  intros Hc. destruct c as [level | data | data]; cbn [Logging.call].
  - now contradiction (Hc level).
  - unfold Logging.logDebug. destruct (_ <=? _); reflexivity.
  - unfold Logging.logVerbose. destruct (_ <=? _); reflexivity.
Qed.

(** X18: the log is silent by default and append-only. Whatever calls are
    made, what was printed before stays printed, in place, and only data
    passed to a log call is added; with the level at [Silent], as it is
    initially, log calls print nothing and change nothing. *)
Theorem logging_is_silent_by_default (cs : list Call) (st : State) :
  (exists added,
     Logging.console (Logging.calls st cs) = Logging.console st ++ added /\
     Forall (fun data => In data (logged_data cs)) added) /\
  (Logging.debugLevel st = Silent -> only_logs cs ->
   Logging.calls st cs = st) /\
  (only_logs cs -> Logging.calls Logging.initial cs = Logging.initial).
Proof.
  assert (Hsilent : forall (cs : list Call) (st : State),
             Logging.debugLevel st = Silent -> only_logs cs ->
             Logging.calls st cs = st).
  { clear cs st. induction cs as [| c rest IH]; intros st Hl Hlogs;
      [reflexivity |].
    apply only_logs_cons in Hlogs. destruct Hlogs as [Hc Hrest].
    unfold Logging.calls. cbn [fold_left].
    assert (Hcall : Logging.call st c = st).
    { destruct c as [level | data | data]; cbn [Logging.call].
      - now contradiction (Hc level).
      - unfold Logging.logDebug. now rewrite Hl.
      - unfold Logging.logVerbose. now rewrite Hl. }
    rewrite Hcall. exact (IH st Hl Hrest). }
  split; [| split; [apply Hsilent | apply Hsilent; reflexivity]].
  revert st. induction cs as [| c rest IH]; intros st.
  - exists []. split; [now rewrite app_nil_r | constructor].
  - unfold Logging.calls. cbn [fold_left].
    destruct (IH (Logging.call st c)) as (added & Hcon & Hadded).
    unfold Logging.calls in Hcon. rewrite Hcon.
    destruct c as [level | data | data];
      cbn [Logging.call logged_data].
    + exists added. split; [reflexivity | exact Hadded].
    + unfold Logging.logDebug. destruct (_ <=? _).
      * exists (data :: added). cbn [Logging.console Logging.console_log].
        rewrite <- app_assoc. split; [reflexivity |].
        constructor; [now left |].
        eapply Forall_impl; [| exact Hadded]. intros d Hd. now right.
      * exists added. split; [reflexivity |].
        eapply Forall_impl; [| exact Hadded]. intros d Hd. now right.
    + unfold Logging.logVerbose. destruct (_ <=? _).
      * exists (data :: added). cbn [Logging.console Logging.console_log].
        rewrite <- app_assoc. split; [reflexivity |].
        constructor; [now left |].
        eapply Forall_impl; [| exact Hadded]. intros d Hd. now right.
      * exists added. split; [reflexivity |].
        eapply Forall_impl; [| exact Hadded]. intros d Hd. now right.
Qed.

(** X19: what each level lets through. At [Debug] a sequence of log calls
    prints the data of its [logDebug] calls, in order, and none of its
    [logVerbose] calls; at [Verbose] it prints the data of every call, in
    order. The level is not changed by logging. *)
Theorem logging_filters_by_level (cs : list Call) (st : State) :
  only_logs cs ->
  Logging.debugLevel (Logging.calls st cs) = Logging.debugLevel st /\
  (Logging.debugLevel st = Debug ->
   Logging.console (Logging.calls st cs)
   = Logging.console st ++ debug_data cs) /\
  (Logging.debugLevel st = Verbose ->
   Logging.console (Logging.calls st cs)
   = Logging.console st ++ logged_data cs).
Proof.
  revert st. induction cs as [| c rest IH]; intros st Hlogs.
  - cbn. rewrite app_nil_r. repeat split.
  - apply only_logs_cons in Hlogs. destruct Hlogs as [Hc Hrest].
    unfold Logging.calls. cbn [fold_left].
    destruct (IH (Logging.call st c) Hrest) as (Hlevel & Hdebug & Hverbose).
    unfold Logging.calls in Hlevel, Hdebug, Hverbose.
    pose proof (call_log_level st c Hc) as Hsame.
    rewrite Hsame in Hlevel, Hdebug, Hverbose.
    split; [exact Hlevel |]. split.
    + intros Hl. rewrite (Hdebug Hl).
      destruct c as [level | data | data];
        cbn [Logging.call debug_data].
      * now contradiction (Hc level).
      * unfold Logging.logDebug. rewrite Hl. cbn. now rewrite <- app_assoc.
      * unfold Logging.logVerbose. rewrite Hl. reflexivity.
    + intros Hl. rewrite (Hverbose Hl).
      destruct c as [level | data | data];
        cbn [Logging.call logged_data].
      * now contradiction (Hc level).
      * unfold Logging.logDebug. rewrite Hl. cbn. now rewrite <- app_assoc.
      * unfold Logging.logVerbose. rewrite Hl. cbn.
        now rewrite <- app_assoc.
Qed.

End DebugLogging.

Lemma logging_filters_by_level_witness :
  Logging.console
    (Logging.calls (Logging.setDebugLevel Debug Logging.initial)
       [Logging.LogDebug 1; Logging.LogVerbose 2; Logging.LogDebug 3])
  = [1; 3] /\
  Logging.console
    (Logging.calls (Logging.setDebugLevel Verbose Logging.initial)
       [Logging.LogDebug 1; Logging.LogVerbose 2; Logging.LogDebug 3])
  = [1; 2; 3].
Proof.
  assert (Hlogs : only_logs
            [Logging.LogDebug 1; Logging.LogVerbose 2; Logging.LogDebug 3]).
  { intros level [H | [H | [H | []]]]; discriminate H. }
  split.
  - destruct (logging_filters_by_level _
                (Logging.setDebugLevel Debug Logging.initial) Hlogs)
      as (_ & Hdebug & _).
    exact (Hdebug eq_refl).
  - destruct (logging_filters_by_level _
                (Logging.setDebugLevel Verbose Logging.initial) Hlogs)
      as (_ & _ & Hverbose).
    exact (Hverbose eq_refl).
Defined.
